(** * Tensile MLFeatures: a shallow embedding and its properties

    The embedded program is [Tensile/MLFeatures.hpp]: seven [MLFeature]
    classes, each a [Property] of a [ContractionProblem] whose value has
    the C++ type [float].

    - C++ [float] is IEEE-754 binary32 and [double] is binary64.  They are
      modelled by the Standard Library's executable specification
      [SpecFloat] at precision 24 and maximal exponent 128, and at 53 and
      1024, with round-to-nearest-even as the rounding of every operation.
      NaNs carry no payload.
    - Expressions are evaluated at their C++ type, without excess
      precision.  The header calls [ceil] unqualified on a [float]: that
      is [::ceil (double)], so the argument is converted to [double] and
      the result is a [double].  In [CUGranularity] the whole product is
      therefore taken in [double] and converted to [float] once, on the
      assignment to [tilesPerCu].  In [WavesPerSIMD] the product of the
      two ceilings is converted on the assignment to [totalTiles]; that
      product is exact in [double], so the value stored is the binary32
      product of the binary32 ceilings ([totalTiles_in_double] below),
      which is how [WavesPerSIMD.call] writes it.
    - [size_t] values are naturals ([N]); the only operation the program
      performs on them is the conversion to [float].
    - A C++ exception is an explicit error result. *)

From Stdlib Require Import ZArith NArith PArith List String Bool Lia.
From Stdlib Require Import Floats.SpecFloat.
Import ListNotations.

Local Open Scope Z_scope.

(** ** IEEE-754 binary32 *)

Module Binary32.

Definition prec : Z := 24.
Definition emax : Z := 128.

(** The C++ type [float]. *)
Definition float : Type := spec_float.

Definition valid (x : float) : bool := valid_binary prec emax x.

(** [x * y] at type [float]. *)
Definition mul (x y : float) : float := SFmul prec emax x y.

(** [x / y] at type [float]. *)
Definition div (x y : float) : float := SFdiv prec emax x y.

(** Conversion of an integer to [float], rounding to nearest even. *)
Definition of_Z (n : Z) : float := binary_normalize prec emax n 0 false.

(** Conversion of a [size_t] to [float]: the implicit conversion in
    [size_t * float] and the cast [(float)n]. *)
Definition of_size (n : N) : float := of_Z (Z.of_N n).

(** The [float] literal [1]. *)
Definition one : float := of_Z 1.

(** The integer [ceil (m * 2^e)] for [e < 0], [m] an integer. *)
Definition Zceil_scaled (m e : Z) : Z := - ((- m) / 2 ^ (- e)).

(** The ceiling of a [float], as a [float]: the least integral value not
    below [x].  A finite float with a non-negative exponent is an integer
    already; zeros, infinities and NaN are returned unchanged; a result
    that rounds up to zero keeps the sign of [x].  It is what
    [::ceil (double)] gives on the float ([dceil_of_float] below). *)
Definition ceil (x : float) : float :=
  match x with
  | S754_finite s m e =>
      if 0 <=? e then x
      else binary_normalize prec emax (Zceil_scaled (cond_Zopp s (Zpos m)) e) 0 s
  | _ => x
  end.

(** The float nearest to the fraction [p / q]: what the literal [0.1f]
    or the quotient [1.0f / 3] denotes. *)
Definition ratio (p q : N) : float := div (of_size p) (of_size q).

(** Zero or a finite number, of either sign. *)
Definition is_finite (x : float) : bool :=
  match x with
  | S754_zero _ | S754_finite _ _ _ => true
  | _ => false
  end.

(** [+0] or a positive finite number. *)
Definition is_finite_nonneg (x : float) : bool :=
  match x with
  | S754_zero false | S754_finite false _ _ => true
  | _ => false
  end.

(** What a rounding of the mantissa [m] at exponent [e] with sign [s]
    may give: never a NaN, always the sign [s]; a finite result is in
    canonical form and its exponent is not below [e]; a zero only when
    the number is too small and an infinity only when it is too large. *)
Definition round_post (s : bool) (m e : Z) (r : float) : Prop :=
  match r with
  | S754_zero s' => s' = s /\ Zdigits2 m + e <= emin prec emax
  | S754_infinity s' =>
      s' = s /\ emax - prec < fexp prec emax (Zdigits2 m + e + 1)
  | S754_nan => False
  | S754_finite s' q e' =>
      s' = s /\ bounded prec emax q e' = true /\ e <= e'
  end.

End Binary32.

Import Binary32.

(** ** IEEE-754 binary64 *)

Module Binary64.

Definition prec : Z := 53.
Definition emax : Z := 1024.

(** The C++ type [double]. *)
Definition double : Type := spec_float.

Definition valid (x : double) : bool := valid_binary prec emax x.

(** [x * y] at type [double]. *)
Definition mul (x y : double) : double := SFmul prec emax x y.

(** The conversion of a [float] to [double], which is exact: the mantissa
    is aligned to the exponent a [double] of that size has. *)
Definition of_float (x : float) : double :=
  match x with
  | S754_finite s m e =>
      let '(m', e') := shl_align m e (fexp prec emax (Zpos (digits2_pos m) + e)) in
      S754_finite s m' e'
  | _ => x
  end.

(** The conversion of a [double] to [float], rounding to nearest even. *)
Definition to_float (x : double) : float :=
  match x with
  | S754_finite s m e => binary_round Binary32.prec Binary32.emax s m e
  | _ => x
  end.

(** [::ceil (double)]. *)
Definition ceil (x : double) : double :=
  match x with
  | S754_finite s m e =>
      if 0 <=? e then x
      else binary_normalize prec emax (Zceil_scaled (cond_Zopp s (Zpos m)) e) 0 s
  | _ => x
  end.

End Binary64.

(** ** Exceptions as results *)

(** The one exception the embedded code can meet: the out-of-bounds
    condition of a problem accessor, with the index asked for and the
    number of sizes the problem holds. *)
Inductive exn : Type :=
| OutOfRange (idx size : N).

Inductive result (A : Type) : Type :=
| Ok (a : A)
| Throw (e : exn).

Arguments Ok {A} a.
Arguments Throw {A} e.

Definition bind {A B : Type} (r : result A) (k : A -> result B) : result B :=
  match r with
  | Ok a => k a
  | Throw e => Throw e
  end.

Definition fmap {A B : Type} (f : A -> B) (r : result A) : result B :=
  bind r (fun a => Ok (f a)).

Notation "x <- r ;; k" := (bind r (fun x => k))
  (at level 61, r at next level, right associativity).

(** ** ContractionProblem *)

(** Modelled from the spec: [ContractionProblem] is declared in
    [Tensile/ContractionProblem.hpp], which is not among the sources.  The
    spec gives it three families of non-negative integral sizes, read through
    the zero-based accessors [freeSizeA], [freeSizeB] and [boundSize], each
    of which fails with an out-of-bounds condition on an index out of
    range. *)
Record ContractionProblem : Type := {
  freeSizesA : list N;
  freeSizesB : list N;
  boundSizes : list N
}.

Definition at_ (v : list N) (idx : N) : result N :=
  match nth_error v (N.to_nat idx) with
  | Some x => Ok x
  | None => Throw (OutOfRange idx (N.of_nat (List.length v)))
  end.

Definition freeSizeA (problem : ContractionProblem) (idx : N) : result N :=
  at_ (freeSizesA problem) idx.

Definition freeSizeB (problem : ContractionProblem) (idx : N) : result N :=
  at_ (freeSizesB problem) idx.

Definition boundSize (problem : ContractionProblem) (idx : N) : result N :=
  at_ (boundSizes problem) idx.

(** Modelled from the spec: [ContractionSolution::GranularityScaleFactors]
    is declared in [Tensile/ContractionSolution.hpp], which is not among the
    sources; the spec gives it three [float] fields. *)
Record GranularityScaleFactors : Type := {
  mt0_scale : float;
  mt1_scale : float;
  devSolScale : float
}.

(** ** The feature classes

    Each [struct] is a module: its data member is the record [t], the static
    member function [Type()] is [Type_] and [operator()] is [call].
    [ContractionSolution::computeGranularity] is not among the sources and
    the spec leaves it open; the classes that call it take it as the
    parameter [computeGranularity]. *)

Module FreeSizeA.
Definition HasIndex : bool := true.
Definition HasValue : bool := false.
Record t : Type := { index : N }.

Definition Type_ : string := "FreeSizeA".

Definition call (self : t) (problem : ContractionProblem) : result float :=
  x <- freeSizeA problem (index self) ;;
  Ok (of_size x).
End FreeSizeA.

Module FreeSizeB.
Definition HasIndex : bool := true.
Definition HasValue : bool := false.
Record t : Type := { index : N }.

Definition Type_ : string := "FreeSizeB".

Definition call (self : t) (problem : ContractionProblem) : result float :=
  x <- freeSizeB problem (index self) ;;
  Ok (of_size x).
End FreeSizeB.

Module BoundSize.
Definition HasIndex : bool := true.
Definition HasValue : bool := false.
Record t : Type := { index : N }.

Definition Type_ : string := "BoundSize".

Definition call (self : t) (problem : ContractionProblem) : result float :=
  x <- boundSize problem (index self) ;;
  Ok (of_size x).
End BoundSize.

Module Tile0Granularity.
Definition HasIndex : bool := false.
Definition HasValue : bool := true.
Record t : Type := { value : float (* 1/mt0 *) }.

Definition Type_ : string := "Tile0Granularity".

Definition call (computeGranularity : float -> float)
    (self : t) (problem : ContractionProblem) : result float :=
  a <- freeSizeA problem 0%N ;;
  let numTiles := mul (of_size a) (value self) in
  Ok (computeGranularity numTiles).
End Tile0Granularity.

Module Tile1Granularity.
Definition HasIndex : bool := false.
Definition HasValue : bool := true.
Record t : Type := { value : float (* 1/mt1 *) }.

Definition Type_ : string := "Tile1Granularity".

Definition call (computeGranularity : float -> float)
    (self : t) (problem : ContractionProblem) : result float :=
  b <- freeSizeB problem 0%N ;;
  let numTiles := mul (of_size b) (value self) in
  Ok (computeGranularity numTiles).
End Tile1Granularity.

Module CUGranularity.
Definition HasIndex : bool := false.
Definition HasValue : bool := true.
Record t : Type := { value : GranularityScaleFactors }.

Definition Type_ : string := "CUGranularity".

Definition call (computeGranularity : float -> float)
    (self : t) (problem : ContractionProblem) : result float :=
  let NumBatches := one in
  a <- freeSizeA problem 0%N ;;
  let numTilesM := mul (of_size a) (mt0_scale (value self)) in
  b <- freeSizeB problem 0%N ;;
  let numTilesN := mul (of_size b) (mt1_scale (value self)) in
  let tilesPerCu :=
    Binary64.to_float
      (Binary64.mul
         (Binary64.mul
            (Binary64.mul (Binary64.of_float NumBatches)
                          (Binary64.ceil (Binary64.of_float numTilesM)))
            (Binary64.ceil (Binary64.of_float numTilesN)))
         (Binary64.of_float (devSolScale (value self)))) in
  Ok (computeGranularity tilesPerCu).
End CUGranularity.

Module WavesPerSIMD.
Definition HasIndex : bool := false.
Definition HasValue : bool := true.
Record t : Type := { value : GranularityScaleFactors }.

Definition Type_ : string := "WavesPerSIMD".

Definition call (self : t) (problem : ContractionProblem) : result float :=
  a <- freeSizeA problem 0%N ;;
  let numTilesM := mul (of_size a) (mt0_scale (value self)) in
  b <- freeSizeB problem 0%N ;;
  let numTilesN := mul (of_size b) (mt1_scale (value self)) in
  let totalTiles := mul (ceil numTilesM) (ceil numTilesN) in
  Ok (mul totalTiles (devSolScale (value self))).
End WavesPerSIMD.

(** ** The polymorphic interface

    [MLFeature<ContractionProblem>] is [Property<ContractionProblem, float>]:
    a configured feature of any of the seven kinds, with the virtual
    [operator()] and the name of its class. *)

Inductive MLFeature : Type :=
| AFreeSizeA (f : FreeSizeA.t)
| AFreeSizeB (f : FreeSizeB.t)
| ABoundSize (f : BoundSize.t)
| ATile0Granularity (f : Tile0Granularity.t)
| ATile1Granularity (f : Tile1Granularity.t)
| ACUGranularity (f : CUGranularity.t)
| AWavesPerSIMD (f : WavesPerSIMD.t).

(** Modelled from the spec: the virtual [type()] of [Property_CRTP], which
    is declared in [Tensile/Properties.hpp] and not among the sources, gives
    the [Type()] of the class of the object. *)
Definition type (f : MLFeature) : string :=
  match f with
  | AFreeSizeA _ => FreeSizeA.Type_
  | AFreeSizeB _ => FreeSizeB.Type_
  | ABoundSize _ => BoundSize.Type_
  | ATile0Granularity _ => Tile0Granularity.Type_
  | ATile1Granularity _ => Tile1Granularity.Type_
  | ACUGranularity _ => CUGranularity.Type_
  | AWavesPerSIMD _ => WavesPerSIMD.Type_
  end.

(** The virtual [operator()]: the call goes to the class of the object. *)
Definition evaluate (computeGranularity : float -> float)
    (f : MLFeature) (problem : ContractionProblem) : result float :=
  match f with
  | AFreeSizeA f => FreeSizeA.call f problem
  | AFreeSizeB f => FreeSizeB.call f problem
  | ABoundSize f => BoundSize.call f problem
  | ATile0Granularity f => Tile0Granularity.call computeGranularity f problem
  | ATile1Granularity f => Tile1Granularity.call computeGranularity f problem
  | ACUGranularity f => CUGranularity.call computeGranularity f problem
  | AWavesPerSIMD f => WavesPerSIMD.call f problem
  end.

(** The seven classes of the header, and the class of an object. *)
Inductive Kind : Type :=
| KFreeSizeA | KFreeSizeB | KBoundSize
| KTile0Granularity | KTile1Granularity | KCUGranularity | KWavesPerSIMD.

Definition all_kinds : list Kind :=
  [ KFreeSizeA; KFreeSizeB; KBoundSize;
    KTile0Granularity; KTile1Granularity; KCUGranularity; KWavesPerSIMD ].

Definition kind_of (f : MLFeature) : Kind :=
  match f with
  | AFreeSizeA _ => KFreeSizeA
  | AFreeSizeB _ => KFreeSizeB
  | ABoundSize _ => KBoundSize
  | ATile0Granularity _ => KTile0Granularity
  | ATile1Granularity _ => KTile1Granularity
  | ACUGranularity _ => KCUGranularity
  | AWavesPerSIMD _ => KWavesPerSIMD
  end.

(** The static member function [Type()] of each class. *)
Definition Type_of (k : Kind) : string :=
  match k with
  | KFreeSizeA => FreeSizeA.Type_
  | KFreeSizeB => FreeSizeB.Type_
  | KBoundSize => BoundSize.Type_
  | KTile0Granularity => Tile0Granularity.Type_
  | KTile1Granularity => Tile1Granularity.Type_
  | KCUGranularity => CUGranularity.Type_
  | KWavesPerSIMD => WavesPerSIMD.Type_
  end.

(** The enumerator [HasValue] of each class; [HasIndex] is its negation
    throughout the header. *)
Definition HasValue_of (k : Kind) : bool :=
  match k with
  | KFreeSizeA => FreeSizeA.HasValue
  | KFreeSizeB => FreeSizeB.HasValue
  | KBoundSize => BoundSize.HasValue
  | KTile0Granularity => Tile0Granularity.HasValue
  | KTile1Granularity => Tile1Granularity.HasValue
  | KCUGranularity => CUGranularity.HasValue
  | KWavesPerSIMD => WavesPerSIMD.HasValue
  end.

(** *** Calls on objects in memory

    A call of [operator()] runs on a memory that holds the feature object
    ([this]), the problem the reference refers to, and whatever else the
    program keeps (results of earlier calls, say).  A computation may read
    and write all three; it returns a value or an exception, and the
    memory it leaves. *)
Record Memory (T : Type) : Type := {
  this_object : T;
  problem_object : ContractionProblem;
  elsewhere : list float
}.

Arguments this_object {T} _.
Arguments problem_object {T} _.
Arguments elsewhere {T} _.

Definition Exec (T A : Type) : Type := Memory T -> result A * Memory T.

Definition ret {T A : Type} (a : A) : Exec T A := fun mem => (Ok a, mem).

Definition seq {T A B : Type} (c : Exec T A) (k : A -> Exec T B) : Exec T B :=
  fun mem =>
    match c mem with
    | (Ok a, mem') => k a mem'
    | (Throw e, mem') => (Throw e, mem')
    end.

Notation "x <~ c ;; k" := (seq c (fun x => k))
  (at level 61, c at next level, right associativity).

(** Reading the data members of [*this]. *)
Definition load_this {T : Type} : Exec T T :=
  fun mem => (Ok (this_object mem), mem).

(** Writing them, writing the problem and keeping a value elsewhere: what
    a member function that is not [const], a non-[const] reference or a
    [static] or [mutable] member would allow. *)
Definition store_this {T : Type} (x : T) : Exec T unit :=
  fun mem =>
    (Ok tt, {| this_object := x;
               problem_object := problem_object mem;
               elsewhere := elsewhere mem |}).

Definition store_problem {T : Type} (p : ContractionProblem) : Exec T unit :=
  fun mem =>
    (Ok tt, {| this_object := this_object mem;
               problem_object := p;
               elsewhere := elsewhere mem |}).

Definition keep {T : Type} (x : float) : Exec T unit :=
  fun mem =>
    (Ok tt, {| this_object := this_object mem;
               problem_object := problem_object mem;
               elsewhere := x :: elsewhere mem |}).

(** The accessors of the problem, called through the reference. *)
Definition call_freeSizeA {T : Type} (idx : N) : Exec T N :=
  fun mem => (freeSizeA (problem_object mem) idx, mem).

Definition call_freeSizeB {T : Type} (idx : N) : Exec T N :=
  fun mem => (freeSizeB (problem_object mem) idx, mem).

Definition call_boundSize {T : Type} (idx : N) : Exec T N :=
  fun mem => (boundSize (problem_object mem) idx, mem).

(** The seven [operator()] bodies, statement by statement, on a memory:
    a data member is read where the statement names it. *)
Module InMemory.

Definition FreeSizeA_call : Exec FreeSizeA.t float :=
  this <~ load_this ;;
  x <~ call_freeSizeA (FreeSizeA.index this) ;;
  ret (of_size x).

Definition FreeSizeB_call : Exec FreeSizeB.t float :=
  this <~ load_this ;;
  x <~ call_freeSizeB (FreeSizeB.index this) ;;
  ret (of_size x).

Definition BoundSize_call : Exec BoundSize.t float :=
  this <~ load_this ;;
  x <~ call_boundSize (BoundSize.index this) ;;
  ret (of_size x).

Definition Tile0Granularity_call (computeGranularity : float -> float)
    : Exec Tile0Granularity.t float :=
  a <~ call_freeSizeA 0%N ;;
  this <~ load_this ;;
  let numTiles := mul (of_size a) (Tile0Granularity.value this) in
  ret (computeGranularity numTiles).

Definition Tile1Granularity_call (computeGranularity : float -> float)
    : Exec Tile1Granularity.t float :=
  b <~ call_freeSizeB 0%N ;;
  this <~ load_this ;;
  let numTiles := mul (of_size b) (Tile1Granularity.value this) in
  ret (computeGranularity numTiles).

Definition CUGranularity_call (computeGranularity : float -> float)
    : Exec CUGranularity.t float :=
  let NumBatches := one in
  a <~ call_freeSizeA 0%N ;;
  this <~ load_this ;;
  let numTilesM := mul (of_size a) (mt0_scale (CUGranularity.value this)) in
  b <~ call_freeSizeB 0%N ;;
  this <~ load_this ;;
  let numTilesN := mul (of_size b) (mt1_scale (CUGranularity.value this)) in
  this <~ load_this ;;
  let tilesPerCu :=
    Binary64.to_float
      (Binary64.mul
         (Binary64.mul
            (Binary64.mul (Binary64.of_float NumBatches)
                          (Binary64.ceil (Binary64.of_float numTilesM)))
            (Binary64.ceil (Binary64.of_float numTilesN)))
         (Binary64.of_float (devSolScale (CUGranularity.value this)))) in
  ret (computeGranularity tilesPerCu).

Definition WavesPerSIMD_call : Exec WavesPerSIMD.t float :=
  a <~ call_freeSizeA 0%N ;;
  this <~ load_this ;;
  let numTilesM := mul (of_size a) (mt0_scale (WavesPerSIMD.value this)) in
  b <~ call_freeSizeB 0%N ;;
  this <~ load_this ;;
  let numTilesN := mul (of_size b) (mt1_scale (WavesPerSIMD.value this)) in
  let totalTiles := mul (ceil numTilesM) (ceil numTilesN) in
  this <~ load_this ;;
  ret (mul totalTiles (devSolScale (WavesPerSIMD.value this))).

End InMemory.

(** A computation that leaves every memory as it found it. *)
Definition read_only {T A : Type} (c : Exec T A) : Prop :=
  forall mem : Memory T, snd (c mem) = mem.

(** A computation whose outcome is the function [f] of the two objects
    alone. *)
Definition computes {T A : Type} (c : Exec T A)
    (f : T -> ContractionProblem -> result A) : Prop :=
  forall mem : Memory T, fst (c mem) = f (this_object mem) (problem_object mem).

(** The product of two floats is a float: taking it in [double] loses
    nothing against taking it in [float]. *)
Definition product_exact (x y : float) : Prop :=
  Binary64.mul (Binary64.of_float x) (Binary64.of_float y)
  = Binary64.of_float (mul x y).

(** The declared domain of the scale factors: each is finite and not
    negative. *)
Definition finite_nonneg_scale (value : GranularityScaleFactors) : bool :=
  is_finite_nonneg (mt0_scale value)
  && is_finite_nonneg (mt1_scale value)
  && is_finite_nonneg (devSolScale value).

(** ** Inputs of the examples *)

(** The scale factors of the examples: [mt0 = 2], [mt1 = 3] and
    [devSolScale = 0.1]. *)
Definition example_scale : GranularityScaleFactors :=
  {| mt0_scale := ratio 1 2; mt1_scale := ratio 1 3; devSolScale := ratio 1 10 |}.

(** A problem whose first free sizes are [a] and [b]. *)
Definition problem_with (a b : N) (fa fb bs : list N) : ContractionProblem :=
  {| freeSizesA := a :: fa; freeSizesB := b :: fb; boundSizes := bs |}.

(** ** Notions for further properties *)

(** A float with the sign bit set: a negative number, [-0] or
    [-infinity].  NaN has no sign here. *)
Definition is_negative (x : float) : bool :=
  match x with
  | S754_zero s | S754_infinity s | S754_finite s _ _ => s
  | S754_nan => false
  end.

(** [x <= y] at type [float]; false when either is NaN. *)
Definition le (x y : float) : bool := SFleb x y.

(** A positive finite float in canonical form. *)
Definition is_positive (x : float) : bool :=
  match x with
  | S754_finite false _ _ => valid x
  | _ => false
  end.

Definition has_nan (value : GranularityScaleFactors) : bool :=
  match mt0_scale value, mt1_scale value, devSolScale value with
  | S754_nan, _, _ | _, S754_nan, _ | _, _, S754_nan => true
  | _, _, _ => false
  end.

Definition no_negative_scale (value : GranularityScaleFactors) : bool :=
  negb (is_negative (mt0_scale value))
  && negb (is_negative (mt1_scale value))
  && negb (is_negative (devSolScale value)).

(** The problem with the two families of free sizes exchanged, the scale
    factors with the two tile scales exchanged, and the feature that reads
    the other family. *)
Definition swap_problem (problem : ContractionProblem) : ContractionProblem :=
  {| freeSizesA := freeSizesB problem;
     freeSizesB := freeSizesA problem;
     boundSizes := boundSizes problem |}.

Definition swap_scale (value : GranularityScaleFactors) : GranularityScaleFactors :=
  {| mt0_scale := mt1_scale value;
     mt1_scale := mt0_scale value;
     devSolScale := devSolScale value |}.

Definition swap_feature (f : MLFeature) : MLFeature :=
  match f with
  | AFreeSizeA f => AFreeSizeB {| FreeSizeB.index := FreeSizeA.index f |}
  | AFreeSizeB f => AFreeSizeA {| FreeSizeA.index := FreeSizeB.index f |}
  | ABoundSize f => ABoundSize f
  | ATile0Granularity f =>
      ATile1Granularity {| Tile1Granularity.value := Tile0Granularity.value f |}
  | ATile1Granularity f =>
      ATile0Granularity {| Tile0Granularity.value := Tile1Granularity.value f |}
  | ACUGranularity f =>
      ACUGranularity {| CUGranularity.value := swap_scale (CUGranularity.value f) |}
  | AWavesPerSIMD f =>
      AWavesPerSIMD {| WavesPerSIMD.value := swap_scale (WavesPerSIMD.value f) |}
  end.

(** The problem with further sizes after the ones it has. *)
Definition extend_problem (problem : ContractionProblem) (xa xb xc : list N)
    : ContractionProblem :=
  {| freeSizesA := freeSizesA problem ++ xa;
     freeSizesB := freeSizesB problem ++ xb;
     boundSizes := boundSizes problem ++ xc |}.

(** Whether the problem has a size at every index the feature asks for:
    its own index for an indexed feature, index 0 of the free sizes a
    value-carrying feature reads. *)
Definition in_range (f : MLFeature) (problem : ContractionProblem) : bool :=
  let lenA := N.of_nat (List.length (freeSizesA problem)) in
  let lenB := N.of_nat (List.length (freeSizesB problem)) in
  let lenC := N.of_nat (List.length (boundSizes problem)) in
  match f with
  | AFreeSizeA f => (FreeSizeA.index f <? lenA)%N
  | AFreeSizeB f => (FreeSizeB.index f <? lenB)%N
  | ABoundSize f => (BoundSize.index f <? lenC)%N
  | ATile0Granularity _ => (0 <? lenA)%N
  | ATile1Granularity _ => (0 <? lenB)%N
  | ACUGranularity _ | AWavesPerSIMD _ => (0 <? lenA)%N && (0 <? lenB)%N
  end.

(** ** Facts on binary32 arithmetic *)

Module Binary32Facts.

(** Linear arithmetic with the exponent function opened up. *)
Ltac fexp_lia := unfold fexp, emin, prec, emax in *; lia.

(** *** Iterated halving *)

Lemma iter_pos_nat {A : Type} (f : A -> A) (p : positive) (x : A) :
  iter_pos f p x = Nat.iter (Pos.to_nat p) f x.
Proof.
  revert x. induction p as [p IH | p IH | ]; intro x; cbn [iter_pos].
  - rewrite Pos2Nat.inj_xI, !IH.
    replace (S (2 * Pos.to_nat p))%nat
      with (Pos.to_nat p + (Pos.to_nat p + 1))%nat by lia.
    rewrite !Nat.iter_add. reflexivity.
  - rewrite Pos2Nat.inj_xO, !IH.
    replace (2 * Pos.to_nat p)%nat
      with (Pos.to_nat p + Pos.to_nat p)%nat by lia.
    rewrite Nat.iter_add. reflexivity.
  - reflexivity.
Qed.

Lemma shr_1_m (r : shr_record) :
  0 <= shr_m r -> shr_m (shr_1 r) = shr_m r / 2 /\ 0 <= shr_m (shr_1 r).
Proof.
  destruct r as [m r s]. cbn [shr_m]. intro Hm.
  destruct m as [ | [p | p | ] | p]; cbn [shr_1 shr_m]; try lia.
  - split; [reflexivity | lia].
  - rewrite Pos2Z.inj_xI. split; [ | lia].
    apply Z.div_unique with (r := 1); lia.
  - rewrite Pos2Z.inj_xO. split; [ | lia].
    apply Z.div_unique with (r := 0); lia.
  - split; [reflexivity | lia].
Qed.

Lemma shr_iter_m (n : nat) (r : shr_record) :
  0 <= shr_m r ->
  shr_m (Nat.iter n shr_1 r) = shr_m r / 2 ^ Z.of_nat n
  /\ 0 <= shr_m (Nat.iter n shr_1 r).
Proof.
  intro Hm. induction n as [ | n [IHm IHpos]].
  - simpl. rewrite Z.div_1_r. split; [reflexivity | exact Hm].
  - change (Nat.iter (S n) shr_1 r) with (shr_1 (Nat.iter n shr_1 r)).
    destruct (shr_1_m _ IHpos) as [E P].
    split; [ | exact P].
    rewrite E, IHm, Nat2Z.inj_succ, Z.pow_succ_r by lia.
    rewrite Z.div_div by lia. f_equal. lia.
Qed.

(** Halving an even mantissa with nothing lost so far loses nothing. *)
Lemma shr_iter_exact (n : nat) (m : Z) :
  0 <= m ->
  Nat.iter n shr_1 (Build_shr_record (m * 2 ^ Z.of_nat n) false false)
  = Build_shr_record m false false.
Proof.
  intro Hm. revert m Hm. induction n as [ | n IH]; intros m Hm.
  - simpl. f_equal. lia.
  - rewrite Nat.iter_succ_r.
    replace (m * 2 ^ Z.of_nat (S n)) with (2 * (m * 2 ^ Z.of_nat n))
      by (rewrite Nat2Z.inj_succ, Z.pow_succ_r by lia; ring).
    assert (Hp : 0 <= m * 2 ^ Z.of_nat n) by (apply Z.mul_nonneg_nonneg; lia).
    destruct (m * 2 ^ Z.of_nat n) as [ | q | q] eqn:E; try lia.
    + simpl. rewrite <- E. apply IH, Hm.
    + simpl. rewrite <- E. apply IH, Hm.
Qed.

(** *** Number of binary digits *)

Lemma digits2_pos_size (p : positive) : digits2_pos p = Pos.size p.
Proof. induction p; simpl; congruence. Qed.

Lemma Zdigits2_log2 (z : Z) : 0 < z -> Zdigits2 z = Z.log2 z + 1.
Proof.
  destruct z as [ | p | p]; try lia. intros _.
  destruct p as [p | p | ]; simpl; rewrite ?digits2_pos_size; lia.
Qed.

Lemma Zdigits2_pos (z : Z) : 0 < z -> 0 < Zdigits2 z.
Proof.
  intro H. rewrite Zdigits2_log2 by exact H.
  pose proof (Z.log2_nonneg z). lia.
Qed.

Lemma Zdigits2_le (a b : Z) : 0 < a -> a <= b -> Zdigits2 a <= Zdigits2 b.
Proof.
  intros Ha Hab. rewrite !Zdigits2_log2 by lia.
  pose proof (Z.log2_le_mono a b Hab). lia.
Qed.

Lemma Zdigits2_mul_pow2 (a n : Z) :
  0 < a -> 0 <= n -> Zdigits2 (a * 2 ^ n) = Zdigits2 a + n.
Proof.
  intros Ha Hn.
  assert (0 < a * 2 ^ n) by (apply Z.mul_pos_pos; [lia | apply Z.pow_pos_nonneg; lia]).
  rewrite !Zdigits2_log2 by lia.
  rewrite Z.log2_mul_pow2 by lia. lia.
Qed.

(** Dividing by a power of two removes that many digits, as long as
    something is left. *)
Lemma Zdigits2_div_pow2 (a n : Z) :
  0 < a -> 0 <= n -> 0 < a / 2 ^ n -> Zdigits2 (a / 2 ^ n) = Zdigits2 a - n.
Proof.
  intros Ha Hn Hq.
  rewrite !Zdigits2_log2 by lia.
  rewrite <- Z.shiftr_div_pow2 in * by lia.
  rewrite Z.log2_shiftr by lia.
  assert (n <= Z.log2 a).
  { destruct (Z_le_gt_dec n (Z.log2 a)) as [L | G]; [exact L | ].
    exfalso. rewrite Z.shiftr_eq_0 in Hq by lia. lia. }
  lia.
Qed.

Lemma Zdigits2_div_pow2_zero (a n : Z) :
  0 < a -> 0 <= n -> a / 2 ^ n = 0 -> Zdigits2 a <= n.
Proof.
  intros Ha Hn Hq.
  rewrite Zdigits2_log2 by lia.
  destruct (Z_le_gt_dec (Z.log2 a + 1) n) as [L | G]; [exact L | exfalso].
  assert (2 ^ n <= a).
  { apply Z.le_trans with (2 ^ Z.log2 a).
    - apply Z.pow_le_mono_r; lia.
    - apply Z.log2_spec; lia. }
  assert (0 < 2 ^ n) by (apply Z.pow_pos_nonneg; lia).
  assert (0 < a / 2 ^ n) by (apply Z.div_str_pos; lia).
  lia.
Qed.

(** *** Rounding *)

Lemma fexp_eq (x : Z) : fexp prec emax x = Z.max (x - 24) (-149).
Proof. reflexivity. Qed.

Lemma shr_m_of_loc (m : Z) (l : location) : shr_m (shr_record_of_loc m l) = m.
Proof. destruct l as [ | [ | | ]]; reflexivity. Qed.

Lemma shr_spec (mrs mrs' : shr_record) (e e' n : Z) :
  0 <= shr_m mrs ->
  shr mrs e n = (mrs', e') ->
  (0 < n /\ e' = e + n /\ shr_m mrs' = shr_m mrs / 2 ^ n /\ 0 <= shr_m mrs')
  \/ (n <= 0 /\ e' = e /\ mrs' = mrs).
Proof.
  intros Hm E. destruct n as [ | p | p]; cbn [shr] in E.
  - right. inversion E. repeat split; lia.
  - left. inversion E; subst. rewrite iter_pos_nat.
    destruct (shr_iter_m (Pos.to_nat p) mrs Hm) as [Em Ep].
    rewrite positive_nat_Z in Em. repeat split; try lia; assumption.
  - right. inversion E. repeat split; lia.
Qed.

(** The first half of a rounding: a mantissa with too many digits for its
    exponent is shifted until it fits. *)
Lemma shr_fexp_spec (m e : Z) (l : location) (mrs : shr_record) (e' : Z) :
  0 < m ->
  e <= fexp prec emax (Zdigits2 m + e) ->
  shr_fexp prec emax m e l = (mrs, e') ->
  e' = fexp prec emax (Zdigits2 m + e)
  /\ 0 <= shr_m mrs
  /\ shr_m mrs = m / 2 ^ (e' - e).
Proof.
  intros Hm Ha E. unfold shr_fexp in E.
  apply shr_spec in E; rewrite shr_m_of_loc in *; [ | lia].
  destruct E as [(Hn & He & Hq & Hp) | (Hn & He & Hr)].
  - subst e'. repeat split; try lia.
    rewrite Hq. f_equal. f_equal. lia.
  - subst mrs e'. rewrite shr_m_of_loc.
    assert (fexp prec emax (Zdigits2 m + e) = e) as -> by lia.
    rewrite Z.sub_diag, Z.div_1_r. repeat split; lia.
Qed.

Lemma round_nearest_even_range (m : Z) (l : location) :
  m <= round_nearest_even m l <= m + 1.
Proof.
  destruct l as [ | [ | | ]]; cbn [round_nearest_even];
    try destruct (Z.even m); lia.
Qed.

Lemma Zdigits2_succ (a b : Z) :
  0 < a -> a <= b <= a + 1 -> Zdigits2 a <= Zdigits2 b <= Zdigits2 a + 1.
Proof.
  intros Ha Hb. rewrite !Zdigits2_log2 by lia.
  pose proof (Z.log2_le_mono a b) as H1.
  pose proof (Z.log2_le_mono b (Z.succ a)) as H2.
  pose proof (Z.log2_succ_le a). lia.
Qed.

(** Rounding a mantissa that its exponent does not leave short of
    digits. *)
Lemma binary_round_aux_spec (s : bool) (m e : Z) (l : location) :
  0 < m ->
  e <= fexp prec emax (Zdigits2 m + e) ->
  round_post s m e (binary_round_aux prec emax s m e l).
Proof.
  intros Hm Ha. unfold binary_round_aux.
  destruct (shr_fexp prec emax m e l) as [mrs1 e1] eqn:E1.
  destruct (shr_fexp_spec _ _ _ _ _ Hm Ha E1) as (He1 & Hp1 & Hq1).
  pose proof (round_nearest_even_range (shr_m mrs1) (loc_of_shr_record mrs1)) as Hr.
  set (m1 := round_nearest_even (shr_m mrs1) (loc_of_shr_record mrs1)) in *.
  destruct (shr_fexp prec emax m1 e1 loc_Exact) as [mrs2 e2] eqn:E2.
  destruct (Z.eq_dec m1 0) as [Z1 | NZ1].
  - (* everything was rounded away *)
    rewrite Z1 in E2. unfold shr_fexp in E2.
    apply shr_spec in E2; [ | cbn; lia].
    assert (shr_m mrs2 = 0) as ->.
    { destruct E2 as [(_ & _ & Hq & _) | (_ & _ & ->)]; [ | reflexivity].
      rewrite Hq. cbn [shr_record_of_loc shr_m]. apply Zdiv_0_l. }
    split; [reflexivity | ].
    assert (Hz : m / 2 ^ (e1 - e) = 0) by lia.
    apply Zdigits2_div_pow2_zero in Hz; [ | lia | lia]. fexp_lia.
  - assert (Hm1 : 0 < m1) by lia.
    assert (Ha1 : e1 <= fexp prec emax (Zdigits2 m1 + e1)
                  /\ fexp prec emax (Zdigits2 m1 + e1)
                     <= fexp prec emax (Zdigits2 m + e + 1)
                  /\ (Zdigits2 m1 + e1 <= emin prec emax ->
                      Zdigits2 m + e <= emin prec emax)).
    { destruct (Z.eq_dec (shr_m mrs1) 0) as [Z0 | NZ0].
      - assert (m1 = 1) as -> by lia.
        rewrite Z0 in Hq1. symmetry in Hq1.
        apply Zdigits2_div_pow2_zero in Hq1; [ | lia | lia].
        pose proof (Zdigits2_pos m Hm).
        cbn [Zdigits2 digits2_pos]. fexp_lia.
      - assert (Hd : Zdigits2 (shr_m mrs1) = Zdigits2 m - (e1 - e)).
        { rewrite Hq1. apply Zdigits2_div_pow2; lia. }
        assert (Zdigits2 (shr_m mrs1) <= Zdigits2 m1 <= Zdigits2 (shr_m mrs1) + 1)
          by (apply Zdigits2_succ; lia).
        fexp_lia. }
    destruct Ha1 as (Ha1 & Hd1 & Hs1).
    destruct (shr_fexp_spec _ _ _ _ _ Hm1 Ha1 E2) as (He2 & Hp2 & Hq2).
    destruct (shr_m mrs2) as [ | q | q] eqn:Eq; [ | | lia].
    { split; [reflexivity | ]. apply Hs1. symmetry in Hq2.
      apply Zdigits2_div_pow2_zero in Hq2; [ | lia | lia]. fexp_lia. }
    destruct (e2 <=? emax - prec) eqn:Ee; cbn [round_post].
    + split; [reflexivity | ]. split; [ | lia].
      unfold bounded, canonical_mantissa.
      rewrite Ee, andb_true_r. apply Z.eqb_eq.
      assert (Hd : Zdigits2 (Z.pos q) = Zdigits2 m1 - (e2 - e1)).
      { rewrite Hq2. apply Zdigits2_div_pow2; lia. }
      cbn [Zdigits2] in Hd. rewrite Hd.
      replace (Zdigits2 m1 - (e2 - e1) + e2) with (Zdigits2 m1 + e1) by lia.
      symmetry. exact He2.
    + split; [reflexivity | ].
      apply Z.leb_gt in Ee. fexp_lia.
Qed.

Lemma round_post_valid (s : bool) (m e : Z) (r : float) :
  round_post s m e r -> valid r = true.
Proof.
  destruct r as [ | | | s' q e']; cbn [round_post]; try reflexivity.
  intros (_ & Hb & _). exact Hb.
Qed.

(** Rounding the exact value of a canonical float gives it back. *)
Lemma binary_round_aux_exact (s : bool) (m : positive) (e j : Z) :
  bounded prec emax m e = true ->
  0 <= j ->
  binary_round_aux prec emax s (Z.pos m * 2 ^ j) (e - j) loc_Exact
  = S754_finite s m e.
Proof.
  intros Hb Hj. unfold bounded, canonical_mantissa in Hb.
  apply andb_true_iff in Hb. destruct Hb as [Hc He].
  apply Z.eqb_eq in Hc.
  unfold binary_round_aux, shr_fexp.
  rewrite Zdigits2_mul_pow2 by lia. cbn [Zdigits2].
  replace (Z.pos (digits2_pos m) + j + (e - j))
    with (Z.pos (digits2_pos m) + e) by lia.
  rewrite Hc. replace (e - (e - j)) with j by lia.
  assert (Hs : shr (shr_record_of_loc (Z.pos m * 2 ^ j) loc_Exact) (e - j) j
               = (Build_shr_record (Z.pos m) false false, e)).
  { destruct j as [ | p | p]; cbn [shr shr_record_of_loc]; try lia.
    - rewrite Z.mul_1_r. f_equal. lia.
    - rewrite iter_pos_nat. rewrite <- (positive_nat_Z p) at 1.
      rewrite shr_iter_exact by lia. f_equal. lia. }
  rewrite Hs. cbn [shr_m loc_of_shr_record round_nearest_even Zdigits2].
  rewrite Hc, Z.sub_diag. cbn [shr shr_record_of_loc shr_m].
  rewrite He. reflexivity.
Qed.

(** *** Alignment before rounding *)

Lemma pos_iter_xO (m d : positive) :
  Z.pos (Pos.iter xO m d) = Z.pos m * 2 ^ Z.pos d.
Proof.
  induction d as [ | d IH] using Pos.peano_ind.
  - cbn [Pos.iter]. lia.
  - rewrite Pos.iter_succ, Pos2Z.inj_xO, IH, Pos2Z.inj_succ, Z.pow_succ_r by lia.
    ring.
Qed.

Lemma shl_align_spec (mx : positive) (ex ex' : Z) (mz : positive) (ez : Z) :
  shl_align mx ex ex' = (mz, ez) ->
  ez = Z.min ex ex'
  /\ Z.pos mz = Z.pos mx * 2 ^ (ex - ez)
  /\ Zdigits2 (Z.pos mz) + ez = Zdigits2 (Z.pos mx) + ex.
Proof.
  unfold shl_align. intro E.
  destruct (ex' - ex) as [ | d | d] eqn:Ed; injection E as <- <-.
  - rewrite Z.min_l, Z.sub_diag by lia. repeat split; lia.
  - rewrite Z.min_l, Z.sub_diag by lia. repeat split; lia.
  - rewrite Z.min_r by lia.
    assert (Hd : ex - ex' = Z.pos d) by lia.
    rewrite Hd, pos_iter_xO. repeat split; try lia.
    rewrite Zdigits2_mul_pow2 by lia. lia.
Qed.

(** A rounding after alignment: the result is as after [round_post], for
    the aligned mantissa and exponent. *)
Lemma binary_round_spec (s : bool) (m : positive) (e : Z) :
  exists (mz : positive) (ez : Z),
    ez = Z.min e (fexp prec emax (Zdigits2 (Z.pos m) + e))
    /\ Zdigits2 (Z.pos mz) + ez = Zdigits2 (Z.pos m) + e
    /\ round_post s (Z.pos mz) ez (binary_round prec emax s m e).
Proof.
  unfold binary_round.
  destruct (shl_align m e (fexp prec emax (Z.pos (digits2_pos m) + e)))
    as [mz ez] eqn:E.
  destruct (shl_align_spec _ _ _ _ _ E) as (Hz & Hm & Hd).
  exists mz, ez. cbn [Zdigits2] in *. repeat split; try assumption.
  apply binary_round_aux_spec; [lia | ].
  cbn [Zdigits2]. rewrite Hd. lia.
Qed.

Lemma binary_round_valid (s : bool) (m : positive) (e : Z) :
  valid (binary_round prec emax s m e) = true.
Proof.
  destruct (binary_round_spec s m e) as (mz & ez & _ & _ & H).
  exact (round_post_valid _ _ _ _ H).
Qed.

Lemma binary_normalize_valid (n : Z) (s : bool) :
  valid (binary_normalize prec emax n 0 s) = true.
Proof.
  destruct n; cbn [binary_normalize];
    [reflexivity | apply binary_round_valid | apply binary_round_valid].
Qed.

(** *** Normal numbers *)

(** A canonical mantissa above the least exponent has all 24 digits. *)
Lemma bounded_normal (q : positive) (e : Z) :
  bounded prec emax q e = true -> -149 < e -> Zdigits2 (Z.pos q) = 24.
Proof.
  unfold bounded, canonical_mantissa. intros Hb He.
  apply andb_true_iff in Hb. destruct Hb as [Hc _].
  apply Z.eqb_eq in Hc. cbn [Zdigits2]. fexp_lia.
Qed.

Lemma bounded_digits (q : positive) (e : Z) :
  bounded prec emax q e = true -> Zdigits2 (Z.pos q) <= 24.
Proof.
  unfold bounded, canonical_mantissa. intros Hb.
  apply andb_true_iff in Hb. destruct Hb as [Hc _].
  apply Z.eqb_eq in Hc. cbn [Zdigits2]. fexp_lia.
Qed.

(** A positive integer converts to a normal positive float, or to
    [+infinity] when it has too many digits. *)
Lemma of_Z_pos (n : Z) :
  0 < n ->
  match of_Z n with
  | S754_finite false q e =>
      bounded prec emax q e = true /\ Zdigits2 (Z.pos q) = 24 /\ -23 <= e
  | S754_infinity false => 128 <= Zdigits2 n
  | _ => False
  end.
Proof.
  destruct n as [ | p | p]; try lia. intros _.
  unfold of_Z. cbn [binary_normalize].
  destruct (binary_round_spec false p 0) as (mz & ez & Hz & Hd & H).
  pose proof (Zdigits2_pos (Z.pos p) eq_refl) as Hp.
  destruct (binary_round prec emax false p 0) as [s' | s' | | s' q e'];
    cbn [round_post] in H.
  - (* no positive integer rounds to zero *)
    destruct H as [_ H]. fexp_lia.
  - destruct H as [-> H]. fexp_lia.
  - exact H.
  - destruct H as (-> & Hb & He). split; [exact Hb | ]. split; [ | fexp_lia].
    apply bounded_normal with (e := e'); [exact Hb | fexp_lia].
Qed.

(** *** Multiplication *)

Lemma one_eq : one = S754_finite false 8388608 (-23).
Proof. reflexivity. Qed.

(** [1 * x] is [x]. *)
Lemma mul_one_l (x : float) : valid x = true -> mul one x = x.
Proof.
  rewrite one_eq. destruct x as [s | s | | s m e]; try reflexivity.
  intro Hv. unfold mul. cbn [SFmul xorb].
  replace (Z.pos (8388608 * m)) with (Z.pos m * 2 ^ 23) by lia.
  replace (-23 + e) with (e - 23) by lia.
  apply binary_round_aux_exact; [exact Hv | lia].
Qed.

(** A product with a normal factor is rounded from enough digits. *)
Lemma mul_normal_post (sx : bool) (mx : positive) (ex : Z) (sy : bool)
    (my : positive) (ey : Z) :
  Zdigits2 (Z.pos mx) = 24 ->
  round_post (xorb sx sy) (Z.pos (mx * my)) (ex + ey)
    (mul (S754_finite sx mx ex) (S754_finite sy my ey)).
Proof.
  intro Hn. unfold mul. cbn [SFmul].
  apply binary_round_aux_spec; [lia | ].
  assert (Zdigits2 (Z.pos mx) <= Zdigits2 (Z.pos (mx * my)))
    by (apply Zdigits2_le; nia).
  fexp_lia.
Qed.

Lemma mul_of_size_valid (a : N) (y : float) :
  valid (mul (of_size a) y) = true.
Proof.
  unfold of_size. destruct a as [ | p].
  - destruct y; reflexivity.
  - pose proof (of_Z_pos (Z.of_N (N.pos p)) eq_refl) as H.
    destruct (of_Z (Z.of_N (N.pos p))) as [ | [ | ] | | [ | ] q e]; try contradiction.
    + destruct y; reflexivity.
    + destruct H as (_ & Hn & _). destruct y as [sy | sy | | sy my ey]; try reflexivity.
      exact (round_post_valid _ _ _ _ (mul_normal_post false q e sy my ey Hn)).
Qed.

(** A size times a finite non-negative factor is finite and non-negative,
    unless the product overflows. *)
Lemma mul_of_size_nonneg (b : N) (y : float) :
  is_finite_nonneg y = true ->
  is_finite (mul (of_size b) y) = true ->
  is_finite_nonneg (mul (of_size b) y) = true.
Proof.
  unfold of_size. intros Hy Hf. destruct b as [ | p].
  - destruct y as [[ | ] | | | [ | ] my ey]; try discriminate Hy; reflexivity.
  - pose proof (of_Z_pos (Z.of_N (N.pos p)) eq_refl) as H.
    destruct (of_Z (Z.of_N (N.pos p))) as [ | [ | ] | | [ | ] q e]; try contradiction.
    + destruct y as [[ | ] | | | [ | ] my ey]; try discriminate Hy; discriminate Hf.
    + destruct H as (_ & Hn & _).
      destruct y as [[ | ] | | | [ | ] my ey]; try discriminate Hy; [reflexivity | ].
      pose proof (mul_normal_post false q e false my ey Hn) as Hp.
      destruct (mul (S754_finite false q e) (S754_finite false my ey))
        as [s' | s' | | s' q' e']; cbn [round_post xorb] in Hp.
      * destruct Hp as [-> _]. reflexivity.
      * discriminate Hf.
      * contradiction.
      * destruct Hp as (-> & _). reflexivity.
Qed.

Lemma mul_zero_l (y : float) :
  is_finite_nonneg y = true -> mul (S754_zero false) y = S754_zero false.
Proof.
  destruct y as [[ | ] | | | [ | ] my ey]; intro H; try discriminate H; reflexivity.
Qed.

Lemma mul_zero_r (y : float) :
  is_finite_nonneg y = true -> mul y (S754_zero false) = S754_zero false.
Proof.
  destruct y as [[ | ] | | | [ | ] my ey]; intro H; try discriminate H; reflexivity.
Qed.

(** *** Powers of two *)

Lemma of_Z_pow2 (k : Z) :
  0 <= k <= 127 -> of_Z (2 ^ k) = S754_finite false 8388608 (k - 23).
Proof.
  intro Hk.
  assert (Hp : 0 < 2 ^ k) by (apply Z.pow_pos_nonneg; lia).
  assert (Hd : Zdigits2 (2 ^ k) = k + 1)
    by (rewrite Zdigits2_log2, Z.log2_pow2 by lia; reflexivity).
  unfold of_Z. destruct (2 ^ k) as [ | p | p] eqn:Ep; try lia.
  cbn [binary_normalize]. unfold binary_round.
  destruct (shl_align p 0 (fexp prec emax (Z.pos (digits2_pos p) + 0)))
    as [mz ez] eqn:E.
  destruct (shl_align_spec _ _ _ _ _ E) as (Hz & Hm & _).
  cbn [Zdigits2] in Hd. rewrite Hd in Hz.
  assert (Hb : bounded prec emax 8388608 (k - 23) = true).
  { unfold bounded, canonical_mantissa. cbn [digits2_pos Pos.succ].
    apply andb_true_iff. split; [apply Z.eqb_eq | apply Z.leb_le]; fexp_lia. }
  assert (Hv : Z.pos mz = Z.pos 8388608 * 2 ^ (k - 23 - ez) /\ 0 <= k - 23 - ez).
  { rewrite Hm, <- Ep. change (Z.pos 8388608) with (2 ^ 23).
    rewrite <- !Z.pow_add_r by fexp_lia. split; [f_equal | ]; fexp_lia. }
  destruct Hv as [Hv Hj]. rewrite Hv.
  replace ez with (k - 23 - (k - 23 - ez)) at 2 by lia.
  apply binary_round_aux_exact; assumption.
Qed.

(** Scaling a normal float down by a power of two is exact, whether it is
    done by multiplying with the reciprocal or by dividing. *)
Lemma bounded_scaled (q : positive) (e k : Z) :
  bounded prec emax q e = true ->
  Zdigits2 (Z.pos q) = 24 ->
  0 <= k -> -149 <= e - k ->
  bounded prec emax q (e - k) = true.
Proof.
  unfold bounded, canonical_mantissa. cbn [Zdigits2]. intros Hb Hn Hk He.
  apply andb_true_iff in Hb. destruct Hb as [_ Hb]. apply Z.leb_le in Hb.
  rewrite Hn. apply andb_true_iff. split; [apply Z.eqb_eq | apply Z.leb_le]; fexp_lia.
Qed.

Lemma mul_pow2 (q : positive) (e k : Z) :
  bounded prec emax q e = true ->
  Zdigits2 (Z.pos q) = 24 ->
  0 <= k -> -149 <= e - k ->
  mul (S754_finite false q e) (S754_finite false 8388608 (-23 - k))
  = S754_finite false q (e - k).
Proof.
  intros Hb Hn Hk He. unfold mul. cbn [SFmul xorb].
  replace (Z.pos (q * 8388608)) with (Z.pos q * 2 ^ 23) by lia.
  replace (e + (-23 - k)) with (e - k - 23) by lia.
  apply binary_round_aux_exact; [ | lia].
  apply bounded_scaled; assumption.
Qed.

Lemma div_eucl_eq (a b : Z) : Z.div_eucl a b = (a / b, a mod b).
Proof. unfold Z.div, Z.modulo. destruct (Z.div_eucl a b). reflexivity. Qed.

Lemma div_pow2 (q : positive) (e k : Z) :
  bounded prec emax q e = true ->
  Zdigits2 (Z.pos q) = 24 ->
  0 <= k -> -149 < e - k ->
  div (S754_finite false q e) (S754_finite false 8388608 (k - 23))
  = S754_finite false q (e - k).
Proof.
  intros Hb Hn Hk He. unfold div. cbn [SFdiv xorb].
  unfold SFdiv_core_binary. rewrite Hn.
  change (Zdigits2 (Z.pos 8388608)) with 24.
  assert (E1 : Z.min (fexp prec emax (24 + e - (24 + (k - 23)))) (e - (k - 23))
               = e - k - 1) by fexp_lia.
  rewrite E1. replace (e - (k - 23) - (e - k - 1)) with 24 by lia.
  rewrite Z.shiftl_mul_pow2 by lia. rewrite div_eucl_eq.
  replace (Z.pos q * 2 ^ 24) with (2 * Z.pos q * 8388608) by lia.
  rewrite Z.div_mul, Z.mod_mul by lia.
  change (new_location 8388608 0) with loc_Exact.
  replace (2 * Z.pos q) with (Z.pos q * 2 ^ 1) by lia.
  replace (e - k - 1) with (e - k - 1 * 1) by lia.
  replace (e - k - 1 * 1) with ((e - k) - 1) by lia.
  apply binary_round_aux_exact; [ | lia].
  apply bounded_scaled; try assumption. lia.
Qed.

(** For a tile extent [2 ^ k], multiplying a size by the stored reciprocal
    is dividing the size by the extent. *)
Lemma mul_ratio_pow2 (k M : N) :
  (k < 64)%N ->
  mul (of_size M) (ratio 1 (2 ^ k)) = ratio M (2 ^ k).
Proof.
  intro Hk. unfold ratio.
  assert (E2 : of_size (2 ^ k) = S754_finite false 8388608 (Z.of_N k - 23)).
  { unfold of_size. rewrite N2Z.inj_pow. apply of_Z_pow2. lia. }
  assert (E1 : div (of_size 1) (of_size (2 ^ k))
               = S754_finite false 8388608 (-23 - Z.of_N k)).
  { rewrite E2. change (of_size 1) with (S754_finite false 8388608 (-23)).
    apply div_pow2; try reflexivity; lia. }
  rewrite E1, E2. unfold of_size. destruct M as [ | p]; [reflexivity | ].
  pose proof (of_Z_pos (Z.of_N (N.pos p)) eq_refl) as H.
  destruct (of_Z (Z.of_N (N.pos p))) as [ | [ | ] | | [ | ] q e]; try contradiction.
  - reflexivity.
  - destruct H as (Hb & Hn & He).
    rewrite mul_pow2, div_pow2 by (assumption || lia). reflexivity.
Qed.

(** *** Exact conversions *)

Lemma mul_comm (x y : float) : mul x y = mul y x.
Proof.
  unfold mul.
  destruct x as [sx | sx | | sx mx ex], y as [sy | sy | | sy my ey];
    cbn [SFmul]; rewrite ?(xorb_comm sx sy); try reflexivity.
  rewrite (Pos.mul_comm mx my), (Z.add_comm ex ey). reflexivity.
Qed.

(** An integer of at most 24 digits, times a power of two, converts
    without rounding. *)
Lemma of_Z_exact (q k : Z) :
  0 < q -> Zdigits2 q <= 24 -> 0 <= k -> Zdigits2 q + k <= 128 ->
  of_Z (q * 2 ^ k)
  = S754_finite false (Z.to_pos (q * 2 ^ (24 - Zdigits2 q))) (Zdigits2 q + k - 24).
Proof.
  intros Hq Hd Hk Hdk.
  pose proof (Zdigits2_pos q Hq) as Hd0.
  assert (Hn : 0 < q * 2 ^ k)
    by (apply Z.mul_pos_pos; [lia | apply Z.pow_pos_nonneg; lia]).
  assert (Hdn : Zdigits2 (q * 2 ^ k) = Zdigits2 q + k)
    by (apply Zdigits2_mul_pow2; lia).
  assert (Hm0 : 0 < q * 2 ^ (24 - Zdigits2 q))
    by (apply Z.mul_pos_pos; [lia | apply Z.pow_pos_nonneg; lia]).
  assert (Hdm : Zdigits2 (q * 2 ^ (24 - Zdigits2 q)) = 24)
    by (rewrite Zdigits2_mul_pow2 by lia; lia).
  set (d := Zdigits2 q) in *.
  destruct (q * 2 ^ (24 - d)) as [ | m | m] eqn:Em; try lia.
  cbn [Z.to_pos].
  unfold of_Z. destruct (q * 2 ^ k) as [ | p | p] eqn:Ep; try lia.
  cbn [binary_normalize]. unfold binary_round.
  destruct (shl_align p 0 (fexp prec emax (Z.pos (digits2_pos p) + 0)))
    as [mz ez] eqn:E.
  destruct (shl_align_spec _ _ _ _ _ E) as (Hz & Hmz & _).
  cbn [Zdigits2] in Hdn, Hdm. rewrite Hdn in Hz.
  assert (Hb : bounded prec emax m (d + k - 24) = true).
  { unfold bounded, canonical_mantissa. rewrite Hdm.
    apply andb_true_iff. split; [apply Z.eqb_eq | apply Z.leb_le]; fexp_lia. }
  assert (Hj : 0 <= d + k - 24 - ez) by fexp_lia.
  assert (Hv : Z.pos mz = Z.pos m * 2 ^ (d + k - 24 - ez)).
  { rewrite Hmz, <- Ep, <- Em, <- !Z.mul_assoc, <- !Z.pow_add_r by fexp_lia.
    f_equal. f_equal. lia. }
  rewrite Hv.
  replace ez with (d + k - 24 - (d + k - 24 - ez)) at 2 by lia.
  apply binary_round_aux_exact; assumption.
Qed.

(** Up to [2 ^ 24] the conversion keeps the value: the float is
    [m * 2 ^ e] with [m * 2 ^ (e + 24) = q * 2 ^ 24]. *)
Lemma of_Z_value (q : Z) :
  0 < q <= 2 ^ 24 ->
  exists (m : positive) (e : Z),
    of_Z q = S754_finite false m e
    /\ -24 <= e
    /\ Z.pos m * 2 ^ (e + 24) = q * 2 ^ 24.
Proof.
  intros [Hq Hle]. destruct (Z.eq_dec q (2 ^ 24)) as [-> | Hne].
  - exists 8388608%positive, 1. repeat split; reflexivity || lia.
  - assert (Hd : Zdigits2 q <= 24).
    { rewrite Zdigits2_log2 by lia.
      assert (Z.log2 q < 24) by (apply Z.log2_lt_pow2; lia). lia. }
    pose proof (Zdigits2_pos q Hq) as Hd0.
    pose proof (of_Z_exact q 0 Hq Hd (Z.le_refl 0)) as E.
    rewrite Z.pow_0_r, Z.mul_1_r in E.
    assert (Hm0 : 0 < q * 2 ^ (24 - Zdigits2 q))
      by (apply Z.mul_pos_pos; [lia | apply Z.pow_pos_nonneg; lia]).
    exists (Z.to_pos (q * 2 ^ (24 - Zdigits2 q))), (Zdigits2 q + 0 - 24).
    split; [apply E; lia | ]. split; [lia | ].
    rewrite Z2Pos.id by lia.
    rewrite <- Z.mul_assoc, <- Z.pow_add_r by lia. f_equal. f_equal. lia.
Qed.

(** Up to [2 ^ 24] different sizes convert to different floats. *)
Lemma of_size_inj (a b : N) :
  (a <= 2 ^ 24)%N -> (b <= 2 ^ 24)%N -> of_size a = of_size b -> a = b.
Proof.
  intros Ha Hb E. unfold of_size in E.
  assert (Hpa : Z.of_N a <= 2 ^ 24) by (change (2 ^ 24) with (Z.of_N (2 ^ 24)); lia).
  assert (Hpb : Z.of_N b <= 2 ^ 24) by (change (2 ^ 24) with (Z.of_N (2 ^ 24)); lia).
  destruct (N.eq_dec a 0) as [-> | Na], (N.eq_dec b 0) as [-> | Nb].
  - reflexivity.
  - destruct (of_Z_value (Z.of_N b)) as (m & e & Eb & _); [lia | ].
    rewrite Eb in E. discriminate E.
  - destruct (of_Z_value (Z.of_N a)) as (m & e & Ea & _); [lia | ].
    rewrite Ea in E. discriminate E.
  - destruct (of_Z_value (Z.of_N a)) as (ma & ea & Ea & _ & Va); [lia | ].
    destruct (of_Z_value (Z.of_N b)) as (mb & eb & Eb & _ & Vb); [lia | ].
    rewrite Ea, Eb in E. injection E as -> ->. lia.
Qed.

(** *** Ceiling *)

Lemma ceil_valid (x : float) : valid x = true -> valid (ceil x) = true.
Proof.
  destruct x as [s | s | | s m e]; try (intros; reflexivity).
  intro Hv. unfold ceil. destruct (0 <=? e); [exact Hv | ].
  apply binary_normalize_valid.
Qed.

Lemma Zceil_scaled_range (m e : Z) :
  0 < m -> e < 0 -> 0 < Zceil_scaled m e <= m.
Proof.
  intros Hm He. unfold Zceil_scaled.
  assert (Hp : 0 < 2 ^ (- e)) by (apply Z.pow_pos_nonneg; lia).
  assert (- m / 2 ^ (- e) < 0) by (apply Z.div_lt_upper_bound; lia).
  assert (- m <= - m / 2 ^ (- e)) by (apply Z.div_le_lower_bound; nia).
  lia.
Qed.

(** The ceiling of a finite non-negative float is finite and
    non-negative. *)
Lemma ceil_finite_nonneg (x : float) :
  valid x = true ->
  is_finite_nonneg x = true ->
  is_finite_nonneg (ceil x) = true.
Proof.
  destruct x as [[ | ] | | | [ | ] m e]; intros Hv Hx; try discriminate Hx;
    [reflexivity | ].
  unfold ceil. destruct (0 <=? e) eqn:He; [reflexivity | ].
  apply Z.leb_gt in He. cbn [cond_Zopp].
  pose proof (Zceil_scaled_range (Z.pos m) e eq_refl He) as Hr.
  pose proof (of_Z_pos (Zceil_scaled (Z.pos m) e) (proj1 Hr)) as H.
  unfold of_Z in H.
  destruct (binary_normalize prec emax (Zceil_scaled (Z.pos m) e) 0 false)
    as [ | [ | ] | | [ | ] q e']; try contradiction; [ | reflexivity].
  exfalso.
  assert (Zdigits2 (Zceil_scaled (Z.pos m) e) <= Zdigits2 (Z.pos m))
    by (apply Zdigits2_le; lia).
  pose proof (bounded_digits m e Hv). lia.
Qed.

(** The tile count of one dimension, as every feature computes it, is a
    float on which multiplying by [1] changes nothing. *)
Lemma mul_one_ceil (a : N) (y : float) :
  mul one (ceil (mul (of_size a) y)) = ceil (mul (of_size a) y).
Proof. apply mul_one_l, ceil_valid, mul_of_size_valid. Qed.

(** *** Whole tile counts *)

(** A size below [2 ^ 24] is its own ceiling. *)
Lemma ceil_of_size_small (q : N) :
  (q < 2 ^ 24)%N -> ceil (of_size q) = of_size q.
Proof.
  intro Hq. destruct q as [ | p]; [reflexivity | ].
  unfold of_size. set (z := Z.of_N (N.pos p)).
  assert (Hz : 0 < z < 2 ^ 24)
    by (change (2 ^ 24) with (Z.of_N (2 ^ 24)); subst z; lia).
  assert (Hd : Zdigits2 z <= 24).
  { rewrite Zdigits2_log2 by lia.
    assert (Z.log2 z < 24) by (apply Z.log2_lt_pow2; lia). lia. }
  pose proof (Zdigits2_pos z (proj1 Hz)) as Hd0.
  pose proof (of_Z_exact z 0 (proj1 Hz) Hd (Z.le_refl 0)) as E.
  rewrite Z.pow_0_r, Z.mul_1_r in E. rewrite E by lia.
  unfold ceil. destruct (0 <=? Zdigits2 z + 0 - 24) eqn:He; [reflexivity | ].
  apply Z.leb_gt in He. cbn [cond_Zopp].
  assert (Hc : 0 < 2 ^ (24 - Zdigits2 z)) by (apply Z.pow_pos_nonneg; lia).
  assert (Hm0 : 0 < z * 2 ^ (24 - Zdigits2 z)) by (apply Z.mul_pos_pos; lia).
  rewrite Z2Pos.id by lia.
  assert (Ec : Zceil_scaled (z * 2 ^ (24 - Zdigits2 z)) (Zdigits2 z + 0 - 24) = z).
  { unfold Zceil_scaled.
    replace (- (Zdigits2 z + 0 - 24)) with (24 - Zdigits2 z) by lia.
    rewrite <- Z.mul_opp_l, Z.div_mul by lia. lia. }
  rewrite Ec. fold (of_Z z). apply E. lia.
Qed.

(** A size that is a whole number of tiles of extent [2 ^ k] has exactly
    that number as its quotient by the extent. *)
Lemma ratio_exact (q k : N) :
  (q < 2 ^ 24)%N -> (k < 64)%N -> ratio (q * 2 ^ k) (2 ^ k) = of_size q.
Proof.
  intros Hq Hk. unfold ratio.
  assert (E2 : of_size (2 ^ k) = S754_finite false 8388608 (Z.of_N k - 23)).
  { unfold of_size. rewrite N2Z.inj_pow. apply of_Z_pow2. lia. }
  rewrite E2. destruct q as [ | p]; [reflexivity | ].
  unfold of_size. rewrite N2Z.inj_mul, N2Z.inj_pow.
  change (Z.of_N 2) with 2. set (z := Z.of_N (N.pos p)).
  assert (Hz : 0 < z < 2 ^ 24)
    by (change (2 ^ 24) with (Z.of_N (2 ^ 24)); subst z; lia).
  assert (Hd : Zdigits2 z <= 24).
  { rewrite Zdigits2_log2 by lia.
    assert (Z.log2 z < 24) by (apply Z.log2_lt_pow2; lia). lia. }
  pose proof (Zdigits2_pos z (proj1 Hz)) as Hd0.
  assert (Hn : 0 < z * 2 ^ Z.of_N k)
    by (apply Z.mul_pos_pos; [lia | apply Z.pow_pos_nonneg; lia]).
  pose proof (of_Z_pos (z * 2 ^ Z.of_N k) Hn) as Hp.
  rewrite (of_Z_exact z (Z.of_N k)) in * by lia.
  destruct Hp as (Hb & Hn24 & _).
  rewrite div_pow2 by (assumption || lia).
  pose proof (of_Z_exact z 0 (proj1 Hz) Hd (Z.le_refl 0)) as E.
  rewrite Z.pow_0_r, Z.mul_1_r in E. rewrite E by lia.
  f_equal. lia.
Qed.

(** *** Tile counts of dimensions that are not empty *)

Lemma one_le_normal (q : positive) (e : Z) :
  Zdigits2 (Z.pos q) = 24 -> -23 <= e ->
  le one (S754_finite false q e) = true.
Proof.
  intros Hd He. rewrite one_eq. unfold le, SFleb. cbn [SFcompare].
  destruct (Z.compare_spec (-23) e) as [E | L | L]; [ | reflexivity | lia].
  assert (Hq : 2 ^ 23 <= Z.pos q).
  { rewrite Zdigits2_log2 in Hd by lia.
    replace 23 with (Z.log2 (Z.pos q)) by lia. apply Z.log2_spec. lia. }
  fold (Pos.compare 8388608 q).
  destruct (Pos.compare_spec 8388608 q) as [C | C | C]; try reflexivity. lia.
Qed.

Lemma one_le_of_Z (n : Z) : 0 < n -> le one (of_Z n) = true.
Proof.
  intro Hn. pose proof (of_Z_pos n Hn) as H.
  destruct (of_Z n) as [ | [ | ] | | [ | ] q e]; try contradiction;
    [reflexivity | ].
  destruct H as (_ & Hd & He). apply one_le_normal; assumption.
Qed.

(** A size that is not 0, times a positive scale, counts at least one
    tile. *)
Lemma one_le_tile_count (a : N) (y : float) :
  (0 < a)%N -> is_positive y = true ->
  le one (ceil (mul (of_size a) y)) = true.
Proof.
  intros Ha Hy. unfold of_size.
  destruct y as [ | | | [ | ] my ey]; try discriminate Hy.
  cbn [is_positive] in Hy.
  pose proof (of_Z_pos (Z.of_N a)) as H.
  destruct (of_Z (Z.of_N a)) as [ | [ | ] | | [ | ] q e];
    try (exfalso; apply H; lia); [reflexivity | ].
  destruct H as (Hb & Hd & He); [lia | ].
  pose proof (mul_normal_post false q e false my ey Hd) as Hp.
  destruct (mul (S754_finite false q e) (S754_finite false my ey))
    as [s' | s' | | s' m' e'] eqn:Em; cbn [round_post xorb] in Hp.
  - (* the product of a normal and a canonical float is not 0 *)
    exfalso. destruct Hp as [_ Hz].
    unfold valid, valid_binary, bounded, canonical_mantissa in Hy.
    apply andb_true_iff in Hy. destruct Hy as [Hc _]. apply Z.eqb_eq in Hc.
    pose proof (Zdigits2_pos (Z.pos my) eq_refl) as Hdy.
    assert (Zdigits2 (Z.pos q) + Zdigits2 (Z.pos my) - 1
            <= Zdigits2 (Z.pos (q * my))).
    { rewrite !Zdigits2_log2 by lia. rewrite Pos2Z.inj_mul.
      pose proof (Z.log2_mul_below (Z.pos q) (Z.pos my)). lia. }
    cbn [Zdigits2] in *. fexp_lia.
  - destruct Hp as [-> _]. reflexivity.
  - contradiction.
  - destruct Hp as (-> & Hb' & He').
    unfold ceil. destruct (0 <=? e') eqn:E0.
    + apply Z.leb_le in E0. rewrite one_eq. unfold le, SFleb. cbn [SFcompare].
      destruct (Z.compare_spec (-23) e') as [E | L | L]; [lia | reflexivity | lia].
    + apply Z.leb_gt in E0. cbn [cond_Zopp].
      pose proof (Zceil_scaled_range (Z.pos m') e' eq_refl E0) as Hr.
      fold (of_Z (Zceil_scaled (Z.pos m') e')). apply one_le_of_Z. lia.
Qed.

(** *** Signs *)

Lemma binary_round_aux_sign (m e : Z) (l : location) :
  is_negative (binary_round_aux prec emax false m e l) = false.
Proof.
  unfold binary_round_aux.
  destruct (shr_fexp prec emax m e l) as [mrs1 e1].
  destruct (shr_fexp prec emax _ e1 loc_Exact) as [mrs2 e2].
  destruct (shr_m mrs2); try reflexivity.
  destruct (e2 <=? emax - prec); reflexivity.
Qed.

Lemma mul_not_negative (x y : float) :
  is_negative x = false -> is_negative y = false ->
  is_negative (mul x y) = false.
Proof.
  unfold mul.
  destruct x as [sx | sx | | sx mx ex], y as [sy | sy | | sy my ey];
    cbn [is_negative SFmul]; intros Hx Hy; subst; try reflexivity.
  apply binary_round_aux_sign.
Qed.

Lemma of_size_not_negative (a : N) : is_negative (of_size a) = false.
Proof.
  destruct a as [ | p]; [reflexivity | ].
  unfold of_size, of_Z. cbn [Z.of_N binary_normalize]. unfold binary_round.
  destruct (shl_align _ _ _) as [mz ez]. apply binary_round_aux_sign.
Qed.

Lemma ceil_not_negative (x : float) :
  is_negative x = false -> is_negative (ceil x) = false.
Proof.
  destruct x as [s | s | | s m e]; cbn [is_negative ceil]; intro Hs;
    try exact Hs; try reflexivity.
  subst s. destruct (0 <=? e) eqn:He; [reflexivity | ].
  apply Z.leb_gt in He. cbn [cond_Zopp].
  pose proof (Zceil_scaled_range (Z.pos m) e eq_refl He) as Hr.
  destruct (Zceil_scaled (Z.pos m) e) as [ | n | n]; try lia.
  cbn [binary_normalize]. unfold binary_round.
  destruct (shl_align _ _ _) as [mz ez]. apply binary_round_aux_sign.
Qed.

End Binary32Facts.

(** ** Facts on rounding at any precision *)

Module RoundingFacts.

Import Binary32Facts.

Section Rounding.

Variables p em : Z.

Lemma round_aux_exact (s : bool) (m : positive) (e j : Z) :
  bounded p em m e = true ->
  0 <= j ->
  binary_round_aux p em s (Z.pos m * 2 ^ j) (e - j) loc_Exact
  = S754_finite s m e.
Proof.
  intros Hb Hj. unfold bounded, canonical_mantissa in Hb.
  apply andb_true_iff in Hb. destruct Hb as [Hc He].
  apply Z.eqb_eq in Hc.
  unfold binary_round_aux, shr_fexp.
  rewrite Zdigits2_mul_pow2 by lia. cbn [Zdigits2].
  replace (Z.pos (digits2_pos m) + j + (e - j))
    with (Z.pos (digits2_pos m) + e) by lia.
  rewrite Hc. replace (e - (e - j)) with j by lia.
  assert (Hs : shr (shr_record_of_loc (Z.pos m * 2 ^ j) loc_Exact) (e - j) j
               = (Build_shr_record (Z.pos m) false false, e)).
  { destruct j as [ | q | q]; cbn [shr shr_record_of_loc]; try lia.
    - rewrite Z.mul_1_r. f_equal. lia.
    - rewrite iter_pos_nat. rewrite <- (positive_nat_Z q) at 1.
      rewrite shr_iter_exact by lia. f_equal. lia. }
  rewrite Hs. cbn [shr_m loc_of_shr_record round_nearest_even Zdigits2].
  rewrite Hc, Z.sub_diag. cbn [shr shr_record_of_loc shr_m].
  rewrite He. reflexivity.
Qed.

Lemma shr_fexp_scaled (m e j : Z) :
  0 < m -> e <= fexp p em (Zdigits2 m + e) -> 0 <= j ->
  shr_fexp p em (m * 2 ^ j) (e - j) loc_Exact = shr_fexp p em m e loc_Exact.
Proof.
  intros Hm Ha Hj. unfold shr_fexp.
  rewrite Zdigits2_mul_pow2 by lia.
  replace (Zdigits2 m + j + (e - j)) with (Zdigits2 m + e) by lia.
  set (n := fexp p em (Zdigits2 m + e) - e).
  replace (fexp p em (Zdigits2 m + e) - (e - j)) with (n + j) by (subst n; lia).
  assert (Hn : 0 <= n) by (subst n; lia).
  cbn [shr_record_of_loc].
  destruct (Z.eq_dec j 0) as [-> | Hj0].
  - rewrite Z.pow_0_r, Z.mul_1_r, Z.add_0_r, Z.sub_0_r. reflexivity.
  - destruct (n + j) as [ | q | q] eqn:Eq; try lia.
    cbn [shr]. rewrite iter_pos_nat.
    replace (Pos.to_nat q) with (Z.to_nat n + Z.to_nat j)%nat by lia.
    rewrite Nat.iter_add.
    replace (m * 2 ^ j) with (m * 2 ^ Z.of_nat (Z.to_nat j))
      by (rewrite Z2Nat.id by lia; reflexivity).
    rewrite shr_iter_exact by lia.
    destruct n as [ | q' | q'] eqn:En; try lia.
    + cbn [Z.to_nat Nat.iter nat_rect shr]. f_equal. lia.
    + cbn [shr]. rewrite iter_pos_nat. cbn [Z.to_nat]. f_equal. lia.
Qed.

Lemma round_aux_scaled (s : bool) (m e j : Z) :
  0 < m -> e <= fexp p em (Zdigits2 m + e) -> 0 <= j ->
  binary_round_aux p em s (m * 2 ^ j) (e - j) loc_Exact
  = binary_round_aux p em s m e loc_Exact.
Proof.
  intros Hm Ha Hj. unfold binary_round_aux.
  rewrite shr_fexp_scaled by assumption. reflexivity.
Qed.

(** Rounding a mantissa and exponent that stand for the value of a
    canonical float gives that float. *)
Lemma round_exact (s : bool) (M : positive) (E : Z) (m0 : positive) (e0 : Z) :
  bounded p em M E = true ->
  (E <= e0 /\ Z.pos M = Z.pos m0 * 2 ^ (e0 - E))
  \/ (e0 <= E /\ Z.pos m0 = Z.pos M * 2 ^ (E - e0)) ->
  binary_round p em s m0 e0 = S754_finite s M E.
Proof.
  intros Hb Hv.
  assert (Hc : fexp p em (Zdigits2 (Z.pos M) + E) = E).
  { unfold bounded, canonical_mantissa in Hb.
    apply andb_true_iff in Hb. destruct Hb as [Hc _].
    apply Z.eqb_eq in Hc. exact Hc. }
  assert (Hd : Zdigits2 (Z.pos m0) + e0 = Zdigits2 (Z.pos M) + E).
  { destruct Hv as [[Hle Hv] | [Hle Hv]]; rewrite Hv;
      rewrite Zdigits2_mul_pow2 by lia; lia. }
  unfold binary_round.
  destruct (shl_align m0 e0 (fexp p em (Z.pos (digits2_pos m0) + e0)))
    as [mz ez] eqn:Es.
  destruct (shl_align_spec _ _ _ _ _ Es) as (Hz & Hmz & _).
  cbn [Zdigits2] in Hd, Hc. rewrite Hd, Hc in Hz.
  destruct Hv as [[Hle Hv] | [Hle Hv]].
  - rewrite Z.min_r in Hz by lia. subst ez.
    rewrite Hmz, <- Hv.
    replace (Z.pos M) with (Z.pos M * 2 ^ 0) by lia.
    replace E with (E - 0) at 1 by lia.
    apply round_aux_exact; [exact Hb | lia].
  - rewrite Z.min_l in Hz by lia. subst ez.
    rewrite Hmz, Z.sub_diag, Z.pow_0_r, Z.mul_1_r, Hv.
    replace e0 with (E - (E - e0)) at 2 by lia.
    apply round_aux_exact; [exact Hb | lia].
Qed.

(** A rounding does not depend on trailing zeros of the mantissa. *)
Lemma round_scaled (s : bool) (m M : positive) (e j : Z) :
  e <= fexp p em (Zdigits2 (Z.pos m) + e) -> 0 <= j ->
  Z.pos M = Z.pos m * 2 ^ j ->
  binary_round p em s M (e - j) = binary_round_aux p em s (Z.pos m) e loc_Exact.
Proof.
  intros Ha Hj HM. unfold binary_round.
  destruct (shl_align M (e - j) (fexp p em (Z.pos (digits2_pos M) + (e - j))))
    as [mz ez] eqn:Es.
  destruct (shl_align_spec _ _ _ _ _ Es) as (Hz & Hmz & _).
  assert (Hd : Z.pos (digits2_pos M) + (e - j) = Zdigits2 (Z.pos m) + e).
  { change (Z.pos (digits2_pos M)) with (Zdigits2 (Z.pos M)).
    rewrite HM, Zdigits2_mul_pow2 by lia. lia. }
  rewrite Hd in Hz. rewrite Z.min_l in Hz by lia. subst ez.
  rewrite Hmz, Z.sub_diag, Z.pow_0_r, Z.mul_1_r, HM.
  apply round_aux_scaled; [lia | exact Ha | exact Hj].
Qed.

End Rounding.

End RoundingFacts.

(** ** Facts on binary64 arithmetic *)

Module Binary64Facts.

Import Binary32Facts RoundingFacts.

Ltac fexp_lia64 :=
  unfold fexp, emin, Binary64.prec, Binary64.emax, prec, emax in *; lia.

Lemma bounded32_range (m : positive) (e : Z) :
  bounded prec emax m e = true ->
  fexp prec emax (Zdigits2 (Z.pos m) + e) = e /\ e <= 104.
Proof.
  unfold bounded, canonical_mantissa. intro Hb.
  apply andb_true_iff in Hb. destruct Hb as [Hc He].
  apply Z.eqb_eq in Hc. apply Z.leb_le in He. split; [exact Hc | fexp_lia64].
Qed.

(** A [float] converts to the [double] of the same value, with all 53
    digits. *)
Lemma of_float_spec (s : bool) (m : positive) (e : Z) :
  bounded prec emax m e = true ->
  exists M : positive,
    Z.pos M = Z.pos m * 2 ^ (53 - Zdigits2 (Z.pos m))
    /\ Binary64.of_float (S754_finite s m e)
       = S754_finite s M (e + Zdigits2 (Z.pos m) - 53)
    /\ bounded Binary64.prec Binary64.emax M (e + Zdigits2 (Z.pos m) - 53) = true.
Proof.
  intro Hb. destruct (bounded32_range m e Hb) as [Hc He].
  pose proof (Zdigits2_pos (Z.pos m) eq_refl) as Hd.
  unfold Binary64.of_float.
  destruct (shl_align m e _) as [mz ez] eqn:Es.
  destruct (shl_align_spec _ _ _ _ _ Es) as (Hz & Hmz & Hdz).
  cbn [Zdigits2] in *.
  assert (Ez : ez = e + Z.pos (digits2_pos m) - 53) by fexp_lia64.
  exists mz. split; [rewrite Hmz; f_equal; f_equal; lia | ].
  split; [rewrite Ez; reflexivity | ].
  unfold bounded, canonical_mantissa. rewrite <- Ez.
  apply andb_true_iff. split; [apply Z.eqb_eq | apply Z.leb_le]; fexp_lia64.
Qed.

Lemma of_float_valid (x : float) :
  valid x = true -> Binary64.valid (Binary64.of_float x) = true.
Proof.
  destruct x as [s | s | | s m e]; try reflexivity. intro Hv.
  destruct (of_float_spec s m e Hv) as (M & _ & -> & Hb). exact Hb.
Qed.

Lemma of_float_one :
  Binary64.of_float one = S754_finite false 4503599627370496 (-52).
Proof. reflexivity. Qed.

(** [1 * x] is [x] in [double] too. *)
Lemma dmul_one_l (x : Binary64.double) :
  Binary64.valid x = true -> Binary64.mul (Binary64.of_float one) x = x.
Proof.
  rewrite of_float_one. destruct x as [s | s | | s m e]; try reflexivity.
  intro Hv. unfold Binary64.mul. cbn [SFmul xorb].
  replace (Z.pos (4503599627370496 * m)) with (Z.pos m * 2 ^ 52) by lia.
  replace (-52 + e) with (e - 52) by lia.
  apply round_aux_exact; [exact Hv | lia].
Qed.

(** The product of two canonical floats is rounded from enough digits. *)
Lemma mul_aligned (mx my : positive) (ex ey : Z) :
  bounded prec emax mx ex = true ->
  bounded prec emax my ey = true ->
  ex + ey <= fexp prec emax (Zdigits2 (Z.pos (mx * my)) + (ex + ey)).
Proof.
  intros Hx Hy.
  destruct (bounded32_range _ _ Hx) as [Hcx _].
  destruct (bounded32_range _ _ Hy) as [Hcy _].
  pose proof (Zdigits2_pos (Z.pos mx) eq_refl).
  pose proof (Zdigits2_pos (Z.pos my) eq_refl).
  assert (Zdigits2 (Z.pos mx) + Zdigits2 (Z.pos my) - 1
          <= Zdigits2 (Z.pos (mx * my))).
  { rewrite !Zdigits2_log2 by lia. rewrite Pos2Z.inj_mul.
    pose proof (Z.log2_mul_below (Z.pos mx) (Z.pos my)). lia. }
  fexp_lia64.
Qed.

Lemma digits_mul_range (mx my : positive) :
  Zdigits2 (Z.pos mx) + Zdigits2 (Z.pos my) - 1 <= Zdigits2 (Z.pos (mx * my))
  <= Zdigits2 (Z.pos mx) + Zdigits2 (Z.pos my).
Proof.
  rewrite !Zdigits2_log2 by lia. rewrite Pos2Z.inj_mul.
  pose proof (Z.log2_mul_below (Z.pos mx) (Z.pos my)).
  pose proof (Z.log2_mul_above (Z.pos mx) (Z.pos my)). lia.
Qed.

(** The product of two floats taken in [double] and converted back is
    their product in [float]: the [double] product is exact. *)
Lemma to_float_mul (x y : float) :
  valid x = true -> valid y = true ->
  Binary64.to_float (Binary64.mul (Binary64.of_float x) (Binary64.of_float y))
  = mul x y.
Proof.
  intros Hx Hy.
  destruct x as [sx | sx | | sx mx ex]; destruct y as [sy | sy | | sy my ey];
    try reflexivity;
    try (destruct (of_float_spec sx mx ex Hx) as (M & _ & E & _);
         rewrite E; reflexivity);
    try (destruct (of_float_spec sy my ey Hy) as (M & _ & E & _);
         rewrite E; reflexivity).
  destruct (of_float_spec sx mx ex Hx) as (Mx & HMx & -> & Hbx).
  destruct (of_float_spec sy my ey Hy) as (My & HMy & -> & Hby).
  destruct (bounded32_range _ _ Hx) as [Hcx Hex].
  destruct (bounded32_range _ _ Hy) as [Hcy Hey].
  pose proof (digits_mul_range mx my) as HdP.
  pose proof (mul_aligned mx my ex ey Hx Hy) as Hal.
  pose proof (Zdigits2_pos (Z.pos mx) eq_refl) as Hdx.
  pose proof (Zdigits2_pos (Z.pos my) eq_refl) as Hdy.
  set (dx := Zdigits2 (Z.pos mx)) in *. set (dy := Zdigits2 (Z.pos my)) in *.
  set (dP := Zdigits2 (Z.pos (mx * my))) in *.
  assert (Hdx24 : dx <= 24 /\ dy <= 24 /\ -149 <= ex /\ -149 <= ey) by fexp_lia64.
  (* the exact product, as a double *)
  assert (HP0 : 0 < Z.pos (mx * my) * 2 ^ (53 - dP))
    by (apply Z.mul_pos_pos; [lia | apply Z.pow_pos_nonneg; lia]).
  destruct (Z.pos (mx * my) * 2 ^ (53 - dP)) as [ | MP | MP] eqn:EMP; try lia.
  assert (HbP : bounded Binary64.prec Binary64.emax MP (ex + ey + dP - 53) = true).
  { unfold bounded, canonical_mantissa.
    assert (Hd : Zdigits2 (Z.pos MP) = 53).
    { rewrite <- EMP, Zdigits2_mul_pow2 by lia. fold dP. lia. }
    cbn [Zdigits2] in Hd. rewrite Hd.
    apply andb_true_iff. split; [apply Z.eqb_eq | apply Z.leb_le]; fexp_lia64. }
  unfold Binary64.mul. cbn [SFmul].
  replace (Z.pos (Mx * My)) with (Z.pos MP * 2 ^ (53 - dx - dy + dP)).
  2:{ rewrite Pos2Z.inj_mul, HMx, HMy, <- EMP. fold dx dy.
      rewrite Pos2Z.inj_mul.
      replace (Z.pos mx * 2 ^ (53 - dx) * (Z.pos my * 2 ^ (53 - dy)))
        with (Z.pos mx * Z.pos my * (2 ^ (53 - dx) * 2 ^ (53 - dy))) by ring.
      rewrite <- Z.mul_assoc, <- !Z.pow_add_r by lia. f_equal. f_equal. lia. }
  replace (ex + dx - 53 + (ey + dy - 53))
    with (ex + ey + dP - 53 - (53 - dx - dy + dP)) by lia.
  rewrite round_aux_exact by (assumption || lia).
  unfold Binary64.to_float, mul. cbn [SFmul].
  replace (ex + ey + dP - 53) with (ex + ey - (53 - dP)) by lia.
  apply round_scaled; [exact Hal | lia | lia].
Qed.

(** An integer of at most 24 digits is the same number as a [float] and
    as a [double]. *)
Lemma of_float_round_small (s : bool) (q : positive) :
  Zdigits2 (Z.pos q) <= 24 ->
  Binary64.of_float (binary_round prec emax s q 0)
  = binary_round Binary64.prec Binary64.emax s q 0.
Proof.
  intro Hd. pose proof (Zdigits2_pos (Z.pos q) eq_refl) as Hd0.
  set (d := Zdigits2 (Z.pos q)) in *.
  assert (H0 : 0 < Z.pos q * 2 ^ (24 - d))
    by (apply Z.mul_pos_pos; [lia | apply Z.pow_pos_nonneg; lia]).
  destruct (Z.pos q * 2 ^ (24 - d)) as [ | m | m] eqn:Em; try lia.
  assert (Hdm : Zdigits2 (Z.pos m) = 24)
    by (rewrite <- Em, Zdigits2_mul_pow2 by lia; fold d; lia).
  assert (Hb : bounded prec emax m (d - 24) = true).
  { unfold bounded, canonical_mantissa. cbn [Zdigits2] in Hdm. rewrite Hdm.
    apply andb_true_iff. split; [apply Z.eqb_eq | apply Z.leb_le]; fexp_lia64. }
  rewrite (round_exact prec emax s m (d - 24) q 0 Hb)
    by (left; split; [lia | rewrite <- Em; f_equal; f_equal; lia]).
  destruct (of_float_spec s m (d - 24) Hb) as (M & HM & -> & HbM).
  rewrite Hdm in *. symmetry.
  apply round_exact; [exact HbM | ].
  left. split; [lia | ].
  rewrite HM, <- Em, <- Z.mul_assoc, <- Z.pow_add_r by lia.
  f_equal. f_equal. lia.
Qed.

Lemma of_float_normalize_small (n : Z) (s : bool) :
  Zdigits2 (Z.abs n) <= 24 ->
  Binary64.of_float (binary_normalize prec emax n 0 s)
  = binary_normalize Binary64.prec Binary64.emax n 0 s.
Proof.
  destruct n as [ | q | q]; cbn [binary_normalize Z.abs]; intro Hd;
    [reflexivity | apply of_float_round_small, Hd
    | apply of_float_round_small, Hd].
Qed.

(** The ceiling of a [float] taken in [double] is its ceiling in
    [float]. *)
Lemma dceil_of_float (x : float) :
  valid x = true ->
  Binary64.ceil (Binary64.of_float x) = Binary64.of_float (ceil x).
Proof.
  destruct x as [s | s | | s m e]; try reflexivity. intro Hv.
  destruct (of_float_spec s m e Hv) as (M & HM & EM & HbM).
  destruct (bounded32_range _ _ Hv) as [Hc He].
  pose proof (Zdigits2_pos (Z.pos m) eq_refl) as Hd0.
  set (d := Zdigits2 (Z.pos m)) in *.
  assert (Hd24 : d <= 24 /\ -149 <= e) by fexp_lia64.
  rewrite EM. unfold Binary64.ceil, ceil.
  destruct (0 <=? e + d - 53) eqn:E1.
  - apply Z.leb_le in E1.
    assert (E2 : (0 <=? e) = true) by (apply Z.leb_le; lia).
    rewrite E2. symmetry. exact EM.
  - apply Z.leb_gt in E1.
    assert (Hc2 : 0 < 2 ^ (53 - d)) by (apply Z.pow_pos_nonneg; lia).
    destruct (0 <=? e) eqn:E2.
    + (* an integer already *)
      apply Z.leb_le in E2. rewrite EM.
      assert (Hme : 0 < Z.pos m * 2 ^ e)
        by (apply Z.mul_pos_pos; [lia | apply Z.pow_pos_nonneg; lia]).
      assert (Ec : Zceil_scaled (cond_Zopp s (Z.pos M)) (e + d - 53)
                   = cond_Zopp s (Z.pos m * 2 ^ e)).
      { unfold Zceil_scaled.
        replace (Z.pos M) with (Z.pos m * 2 ^ e * 2 ^ (- (e + d - 53))).
        2:{ rewrite HM, <- Z.mul_assoc, <- Z.pow_add_r by lia.
            f_equal. f_equal. lia. }
        assert (0 < 2 ^ (- (e + d - 53))) by (apply Z.pow_pos_nonneg; lia).
        destruct s; cbn [cond_Zopp].
        - rewrite Z.opp_involutive, Z.div_mul by lia. reflexivity.
        - rewrite <- Z.mul_opp_l, Z.div_mul by lia. lia. }
      rewrite Ec.
      destruct (Z.pos m * 2 ^ e) as [ | me | me] eqn:Eme; try lia.
      assert (Hr : binary_round Binary64.prec Binary64.emax s me 0
                   = S754_finite s M (e + d - 53)).
      { apply round_exact; [exact HbM | ].
        left. split; [lia | ].
        rewrite HM, <- Eme, <- Z.mul_assoc, <- Z.pow_add_r by lia.
        f_equal. f_equal. lia. }
      destruct s; cbn [cond_Zopp Z.opp binary_normalize]; exact Hr.
    + apply Z.leb_gt in E2.
      assert (Ec : Zceil_scaled (cond_Zopp s (Z.pos M)) (e + d - 53)
                   = Zceil_scaled (cond_Zopp s (Z.pos m)) e).
      { unfold Zceil_scaled.
        replace (- cond_Zopp s (Z.pos M))
          with (- cond_Zopp s (Z.pos m) * 2 ^ (53 - d))
          by (rewrite HM; destruct s; cbn [cond_Zopp]; ring).
        replace (2 ^ (- (e + d - 53))) with (2 ^ (- e) * 2 ^ (53 - d))
          by (rewrite <- Z.pow_add_r by lia; f_equal; lia).
        rewrite Z.div_mul_cancel_r by (apply Z.pow_nonzero; lia).
        reflexivity. }
      rewrite Ec. symmetry. apply of_float_normalize_small.
      assert (Hp : 0 < 2 ^ (- e)) by (apply Z.pow_pos_nonneg; lia).
      assert (Hr : Z.abs (Zceil_scaled (cond_Zopp s (Z.pos m)) e) <= Z.pos m).
      { unfold Zceil_scaled. destruct s; cbn [cond_Zopp].
        - rewrite Z.opp_involutive.
          assert (0 <= Z.pos m / 2 ^ (- e)) by (apply Z.div_pos; lia).
          assert (Z.pos m / 2 ^ (- e) <= Z.pos m)
            by (apply Z.div_le_upper_bound; nia).
          lia.
        - assert (- Z.pos m / 2 ^ (- e) < 0)
            by (apply Z.div_lt_upper_bound; lia).
          assert (- Z.pos m <= - Z.pos m / 2 ^ (- e))
            by (apply Z.div_le_lower_bound; nia).
          lia. }
      destruct (Z.eq_dec (Zceil_scaled (cond_Zopp s (Z.pos m)) e) 0) as [-> | Hn];
        [cbn; lia | ].
      assert (Zdigits2 (Z.abs (Zceil_scaled (cond_Zopp s (Z.pos m)) e)) <= d)
        by (apply Zdigits2_le; lia).
      lia.
Qed.

(** *** The tile counts of the features, taken in [double] *)

Lemma tile_count_in_double (a : N) (y : float) :
  Binary64.ceil (Binary64.of_float (mul (of_size a) y))
  = Binary64.of_float (ceil (mul (of_size a) y)).
Proof. apply dceil_of_float, mul_of_size_valid. Qed.

Lemma tile_count_times_one (a : N) (y : float) :
  Binary64.mul (Binary64.of_float one)
    (Binary64.ceil (Binary64.of_float (mul (of_size a) y)))
  = Binary64.of_float (ceil (mul (of_size a) y)).
Proof.
  rewrite tile_count_in_double.
  apply dmul_one_l, of_float_valid, ceil_valid, mul_of_size_valid.
Qed.

(** [float totalTiles = ceil(numTilesM) * ceil(numTilesN)]: the product of
    the two [double] ceilings, converted to [float], is the product of the
    two [float] ceilings. *)
Lemma totalTiles_in_double (a b : N) (y0 y1 : float) :
  Binary64.to_float
    (Binary64.mul (Binary64.ceil (Binary64.of_float (mul (of_size a) y0)))
                  (Binary64.ceil (Binary64.of_float (mul (of_size b) y1))))
  = mul (ceil (mul (of_size a) y0)) (ceil (mul (of_size b) y1)).
Proof.
  rewrite !tile_count_in_double.
  apply to_float_mul; apply ceil_valid, mul_of_size_valid.
Qed.

(** When the product of the two tile counts is a float, what
    [CUGranularity] takes in [double] and converts once is what
    [WavesPerSIMD] takes in [float]. *)
Lemma tilesPerCu_exact (a b : N) (y0 y1 dev : float) :
  valid dev = true ->
  product_exact (ceil (mul (of_size a) y0)) (ceil (mul (of_size b) y1)) ->
  Binary64.to_float
    (Binary64.mul
       (Binary64.mul
          (Binary64.mul (Binary64.of_float one)
             (Binary64.ceil (Binary64.of_float (mul (of_size a) y0))))
          (Binary64.ceil (Binary64.of_float (mul (of_size b) y1))))
       (Binary64.of_float dev))
  = mul (mul (ceil (mul (of_size a) y0)) (ceil (mul (of_size b) y1))) dev.
Proof.
  intros Hd He. unfold product_exact in He.
  rewrite tile_count_times_one, tile_count_in_double, He.
  apply to_float_mul; [ | exact Hd].
  (* the product of two canonical floats is canonical *)
  pose proof (ceil_valid _ (mul_of_size_valid a y0)) as H0.
  pose proof (ceil_valid _ (mul_of_size_valid b y1)) as H1.
  destruct (ceil (mul (of_size a) y0)) as [s0 | s0 | | s0 m0 e0];
    destruct (ceil (mul (of_size b) y1)) as [s1 | s1 | | s1 m1 e1];
    try reflexivity.
  unfold mul. cbn [SFmul].
  exact (round_post_valid _ _ _ _
           (binary_round_aux_spec (xorb s0 s1) (Z.pos (m0 * m1)) (e0 + e1)
              loc_Exact eq_refl (mul_aligned m0 m1 e0 e1 H0 H1))).
Qed.

Lemma dmul_zero_l (y : float) :
  is_finite_nonneg y = true ->
  Binary64.mul (S754_zero false) (Binary64.of_float y) = S754_zero false.
Proof.
  destruct y as [[ | ] | | | [ | ] m e]; intro H; try discriminate H;
    [reflexivity | ].
  unfold Binary64.of_float. destruct (shl_align _ _ _). reflexivity.
Qed.

Lemma dmul_zero_r (y : float) :
  is_finite_nonneg y = true ->
  Binary64.mul (Binary64.of_float y) (S754_zero false) = S754_zero false.
Proof.
  destruct y as [[ | ] | | | [ | ] m e]; intro H; try discriminate H;
    [reflexivity | ].
  unfold Binary64.of_float. destruct (shl_align _ _ _). reflexivity.
Qed.

Lemma dmul_nan_r (x : Binary64.double) : Binary64.mul x S754_nan = S754_nan.
Proof. destruct x; reflexivity. Qed.

Lemma dmul_comm (x y : Binary64.double) : Binary64.mul x y = Binary64.mul y x.
Proof.
  unfold Binary64.mul.
  destruct x as [sx | sx | | sx mx ex], y as [sy | sy | | sy my ey];
    cbn [SFmul]; rewrite ?(xorb_comm sx sy); try reflexivity.
  rewrite (Pos.mul_comm mx my), (Z.add_comm ex ey). reflexivity.
Qed.

(** *** Products of small whole numbers *)

(** A size below [2 ^ 24] that is not 0, as a float. *)
Lemma of_size_small_form (q : positive) :
  Z.pos q < 2 ^ 24 ->
  exists m : positive,
    Z.pos m = Z.pos q * 2 ^ (24 - Zdigits2 (Z.pos q))
    /\ of_size (N.pos q) = S754_finite false m (Zdigits2 (Z.pos q) - 24)
    /\ bounded prec emax m (Zdigits2 (Z.pos q) - 24) = true
    /\ Zdigits2 (Z.pos m) = 24.
Proof.
  intro Hq.
  assert (Hd : Zdigits2 (Z.pos q) <= 24).
  { rewrite Zdigits2_log2 by lia.
    assert (Z.log2 (Z.pos q) < 24) by (apply Z.log2_lt_pow2; lia). lia. }
  pose proof (Zdigits2_pos (Z.pos q) eq_refl) as Hd0.
  pose proof (of_Z_exact (Z.pos q) 0 eq_refl Hd (Z.le_refl 0)) as E.
  rewrite Z.pow_0_r, Z.mul_1_r, Z.add_0_r in E.
  pose proof (of_Z_pos (Z.pos q) eq_refl) as Hp.
  rewrite E in Hp by lia. destruct Hp as (Hb & Hn & _).
  assert (H0 : 0 < Z.pos q * 2 ^ (24 - Zdigits2 (Z.pos q)))
    by (apply Z.mul_pos_pos; [lia | apply Z.pow_pos_nonneg; lia]).
  exists (Z.to_pos (Z.pos q * 2 ^ (24 - Zdigits2 (Z.pos q)))).
  split; [apply Z2Pos.id, H0 | ].
  split; [apply E; lia | ]. split; assumption.
Qed.

(** With fewer than [2 ^ 24] in all, the product of two sizes is exact in
    [float]. *)
Lemma mul_of_size_exact (qa qb : N) :
  (qa * qb < 2 ^ 24)%N -> (qa < 2 ^ 24)%N -> (qb < 2 ^ 24)%N ->
  mul (of_size qa) (of_size qb) = of_size (qa * qb).
Proof.
  intros Hab Ha Hb.
  destruct qa as [ | pa]; [ | destruct qb as [ | pb]].
  - destruct qb as [ | pb]; [reflexivity | ].
    destruct (of_size_small_form pb) as (m & _ & -> & _);
      [change (2 ^ 24) with (Z.of_N (2 ^ 24)); lia | reflexivity].
  - destruct (of_size_small_form pa) as (m & _ & -> & _);
      [change (2 ^ 24) with (Z.of_N (2 ^ 24)); lia | reflexivity].
  - assert (Za : Z.pos pa < 2 ^ 24) by (change (2 ^ 24) with (Z.of_N (2 ^ 24)); lia).
    assert (Zb : Z.pos pb < 2 ^ 24) by (change (2 ^ 24) with (Z.of_N (2 ^ 24)); lia).
    assert (Zab : Z.pos (pa * pb) < 2 ^ 24)
      by (change (2 ^ 24) with (Z.of_N (2 ^ 24)); lia).
    destruct (of_size_small_form pa Za) as (ma & Hma & Ea & _ & _).
    destruct (of_size_small_form pb Zb) as (mb & Hmb & Eb & _ & _).
    destruct (of_size_small_form (pa * pb) Zab) as (mab & Hmab & Eab & Hbab & _).
    change (N.pos pa * N.pos pb)%N with (N.pos (pa * pb)).
    rewrite Ea, Eb, Eab. unfold mul. cbn [SFmul xorb].
    pose proof (digits_mul_range pa pb) as Hd.
    pose proof (Zdigits2_pos (Z.pos pa) eq_refl).
    pose proof (Zdigits2_pos (Z.pos pb) eq_refl).
    assert (Hda : Zdigits2 (Z.pos pa) <= 24).
    { rewrite Zdigits2_log2 by lia.
      assert (Z.log2 (Z.pos pa) < 24) by (apply Z.log2_lt_pow2; lia). lia. }
    assert (Hdb : Zdigits2 (Z.pos pb) <= 24).
    { rewrite Zdigits2_log2 by lia.
      assert (Z.log2 (Z.pos pb) < 24) by (apply Z.log2_lt_pow2; lia). lia. }
    assert (Hdab : Zdigits2 (Z.pos (pa * pb)) <= 24).
    { rewrite Zdigits2_log2 by lia.
      assert (Z.log2 (Z.pos (pa * pb)) < 24) by (apply Z.log2_lt_pow2; lia). lia. }
    set (da := Zdigits2 (Z.pos pa)) in *. set (db := Zdigits2 (Z.pos pb)) in *.
    set (dab := Zdigits2 (Z.pos (pa * pb))) in *.
    replace (Z.pos (ma * mb)) with (Z.pos mab * 2 ^ (24 - da - db + dab)).
    2:{ rewrite Pos2Z.inj_mul, Hma, Hmb, Hmab, Pos2Z.inj_mul.
        replace (Z.pos pa * 2 ^ (24 - da) * (Z.pos pb * 2 ^ (24 - db)))
          with (Z.pos pa * Z.pos pb * (2 ^ (24 - da) * 2 ^ (24 - db))) by ring.
        rewrite <- Z.mul_assoc, <- !Z.pow_add_r by lia. f_equal. f_equal. lia. }
    replace (da - 24 + (db - 24)) with (dab - 24 - (24 - da - db + dab)) by lia.
    apply binary_round_aux_exact; [exact Hbab | lia].
Qed.

(** And it is the same product in [double]. *)
Lemma product_exact_of_size (qa qb : N) :
  (qa * qb < 2 ^ 24)%N -> (qa < 2 ^ 24)%N -> (qb < 2 ^ 24)%N ->
  product_exact (of_size qa) (of_size qb).
Proof.
  intros Hab Ha Hb. unfold product_exact.
  rewrite (mul_of_size_exact qa qb Hab Ha Hb).
  destruct qa as [ | pa]; [ | destruct qb as [ | pb]].
  - destruct qb as [ | pb]; [reflexivity | ].
    destruct (of_size_small_form pb) as (m & _ & -> & _);
      [change (2 ^ 24) with (Z.of_N (2 ^ 24)); lia | ].
    cbn [N.mul]. unfold Binary64.of_float at 2.
    destruct (shl_align _ _ _). reflexivity.
  - destruct (of_size_small_form pa) as (m & _ & -> & _);
      [change (2 ^ 24) with (Z.of_N (2 ^ 24)); lia | ].
    cbn [N.mul]. unfold Binary64.of_float at 1.
    destruct (shl_align _ _ _). reflexivity.
  - assert (Za : Z.pos pa < 2 ^ 24) by (change (2 ^ 24) with (Z.of_N (2 ^ 24)); lia).
    assert (Zb : Z.pos pb < 2 ^ 24) by (change (2 ^ 24) with (Z.of_N (2 ^ 24)); lia).
    assert (Zab : Z.pos (pa * pb) < 2 ^ 24)
      by (change (2 ^ 24) with (Z.of_N (2 ^ 24)); lia).
    destruct (of_size_small_form pa Za) as (ma & Hma & Ea & Hba & Hna).
    destruct (of_size_small_form pb Zb) as (mb & Hmb & Eb & Hbb & Hnb).
    destruct (of_size_small_form (pa * pb) Zab) as (mab & Hmab & Eab & Hbab & Hnab).
    change (N.pos pa * N.pos pb)%N with (N.pos (pa * pb)).
    rewrite Ea, Eb, Eab.
    destruct (of_float_spec false ma _ Hba) as (Ma & HMa & -> & _).
    destruct (of_float_spec false mb _ Hbb) as (Mb & HMb & -> & _).
    destruct (of_float_spec false mab _ Hbab) as (Mab & HMab & -> & HbM).
    rewrite Hna, Hnb, Hnab in *.
    pose proof (digits_mul_range pa pb) as Hd.
    pose proof (Zdigits2_pos (Z.pos pa) eq_refl).
    pose proof (Zdigits2_pos (Z.pos pb) eq_refl).
    assert (Hda : Zdigits2 (Z.pos pa) <= 24).
    { rewrite Zdigits2_log2 by lia.
      assert (Z.log2 (Z.pos pa) < 24) by (apply Z.log2_lt_pow2; lia). lia. }
    assert (Hdb : Zdigits2 (Z.pos pb) <= 24).
    { rewrite Zdigits2_log2 by lia.
      assert (Z.log2 (Z.pos pb) < 24) by (apply Z.log2_lt_pow2; lia). lia. }
    assert (Hdab : Zdigits2 (Z.pos (pa * pb)) <= 24).
    { rewrite Zdigits2_log2 by lia.
      assert (Z.log2 (Z.pos (pa * pb)) < 24) by (apply Z.log2_lt_pow2; lia). lia. }
    set (da := Zdigits2 (Z.pos pa)) in *. set (db := Zdigits2 (Z.pos pb)) in *.
    set (dab := Zdigits2 (Z.pos (pa * pb))) in *.
    unfold Binary64.mul. cbn [SFmul xorb].
    replace (Z.pos (Ma * Mb)) with (Z.pos Mab * 2 ^ (53 - da - db + dab)).
    2:{ rewrite Pos2Z.inj_mul, HMa, HMb, HMab, Hma, Hmb, Hmab, Pos2Z.inj_mul.
        assert (E1 : 2 ^ (24 - dab) * 2 ^ (53 - 24) * 2 ^ (53 - da - db + dab)
                     = 2 ^ (106 - da - db))
          by (rewrite <- !Z.pow_add_r by lia; f_equal; lia).
        assert (E2 : 2 ^ (24 - da) * 2 ^ (53 - 24) * (2 ^ (24 - db) * 2 ^ (53 - 24))
                     = 2 ^ (106 - da - db))
          by (rewrite <- !Z.pow_add_r by lia; f_equal; lia).
        transitivity (Z.pos pa * Z.pos pb * 2 ^ (106 - da - db));
          [rewrite <- E1 | rewrite <- E2]; ring. }
    replace (da - 24 + 24 - 53 + (db - 24 + 24 - 53))
      with (dab - 24 + 24 - 53 - (53 - da - db + dab)) by lia.
    apply round_aux_exact; [exact HbM | lia].
Qed.

End Binary64Facts.

Import Binary32Facts.
Import Binary64Facts.

(** ** Properties of the features *)

Section Features.

(** [ContractionSolution::computeGranularity], whatever it is. *)
Variable G : float -> float.

(** C1. [CUGranularity] returns [computeGranularity] of
    [1 * ceil (freeSizeA(0) * mt0_scale) * ceil (freeSizeB(0) * mt1_scale)
    * devSolScale], each tile count rounded up on its own before the
    product is taken; the tile counts are [float] products, the ceilings
    and the product of the four factors are taken in [double], and the
    product is converted to [float] once.  With sizes 5 and 3, scales 1/2 and 1/3 and
    [devSolScale] 0.1 the tile counts 2.5 and 1 round up to 3 and 1 and
    the result is [computeGranularity 0.3]; with sizes 3 and 3 and both
    scales 1/2 it is [computeGranularity 4], where the ceiling of the
    product of the tile counts would be 3. *)
Theorem CUGranularity_formula :
  (forall (value : GranularityScaleFactors) (problem : ContractionProblem),
      CUGranularity.call G {| CUGranularity.value := value |} problem
      = (a <- freeSizeA problem 0%N ;;
         b <- freeSizeB problem 0%N ;;
         Ok (G (Binary64.to_float
                  (Binary64.mul
                     (Binary64.mul
                        (Binary64.mul
                           (Binary64.of_float one)
                           (Binary64.ceil
                              (Binary64.of_float
                                 (mul (of_size a) (mt0_scale value)))))
                        (Binary64.ceil
                           (Binary64.of_float
                              (mul (of_size b) (mt1_scale value)))))
                     (Binary64.of_float (devSolScale value)))))))
  /\ (forall fa fb bs,
         CUGranularity.call G {| CUGranularity.value := example_scale |}
           (problem_with 5 3 fa fb bs)
         = Ok (G (ratio 3 10)))
  /\ (forall fa fb bs,
         CUGranularity.call G
           {| CUGranularity.value :=
               {| mt0_scale := ratio 1 2; mt1_scale := ratio 1 2;
                  devSolScale := one |} |}
           (problem_with 3 3 fa fb bs)
         = Ok (G (of_size 4)))
  /\ ceil (mul (mul (of_size 3) (ratio 1 2)) (mul (of_size 3) (ratio 1 2)))
     = of_size 3
  /\ ceil (mul (of_size 5) (ratio 1 2)) = of_size 3
  /\ ceil (mul (of_size 3) (ratio 1 3)) = of_size 1.
Proof.
  split; [ | split; [ | split; [ | split; [ | split]]]].
  - intros value problem. reflexivity.
  - intros fa fb bs. reflexivity.
  - intros fa fb bs. reflexivity.
  - reflexivity.
  - reflexivity.
  - reflexivity.
Qed.

(** C2, as amended.  [WavesPerSIMD] returns
    [ceil (freeSizeA(0) * mt0_scale) * ceil (freeSizeB(0) * mt1_scale)
    * devSolScale] itself, not [computeGranularity] of it: with sizes 5 and
    3 and the scales of the example it returns 0.3.  When the product of
    the two tile counts is a float, [CUGranularity] applies
    [computeGranularity] to that same count, so for the same problem and
    the same scale factors the two features return different values
    whenever [computeGranularity] moves it. *)
Theorem WavesPerSIMD_raw :
  (forall (value : GranularityScaleFactors) (problem : ContractionProblem),
      WavesPerSIMD.call {| WavesPerSIMD.value := value |} problem
      = (a <- freeSizeA problem 0%N ;;
         b <- freeSizeB problem 0%N ;;
         Ok (mul (mul (ceil (mul (of_size a) (mt0_scale value)))
                      (ceil (mul (of_size b) (mt1_scale value))))
                 (devSolScale value))))
  /\ (forall fa fb bs,
         WavesPerSIMD.call {| WavesPerSIMD.value := example_scale |}
           (problem_with 5 3 fa fb bs)
         = Ok (ratio 3 10))
  /\ (forall (value : GranularityScaleFactors) (problem : ContractionProblem)
             (a b : N) (w : float),
         valid (devSolScale value) = true ->
         freeSizeA problem 0%N = Ok a ->
         freeSizeB problem 0%N = Ok b ->
         product_exact (ceil (mul (of_size a) (mt0_scale value)))
                       (ceil (mul (of_size b) (mt1_scale value))) ->
         WavesPerSIMD.call {| WavesPerSIMD.value := value |} problem = Ok w ->
         G w <> w ->
         CUGranularity.call G {| CUGranularity.value := value |} problem
         <> WavesPerSIMD.call {| WavesPerSIMD.value := value |} problem).
Proof.
  split; [ | split].
  - intros value problem. reflexivity.
  - intros fa fb bs. reflexivity.
  - intros value problem a b w Hd HA HB He Hw HG.
    unfold CUGranularity.call, WavesPerSIMD.call in *.
    cbn [CUGranularity.value WavesPerSIMD.value] in *.
    rewrite HA, HB in *. cbn [bind] in *.
    rewrite (tilesPerCu_exact a b _ _ _ Hd He).
    injection Hw as <-. intro E. injection E as E. exact (HG E).
Qed.

(** C3, as amended.  [Tile0Granularity] returns [computeGranularity] of
    the single-precision product of [freeSizeA(0)] and the stored value,
    and [Tile1Granularity] the same over [freeSizeB(0)].  When the stored
    value is the reciprocal of a tile extent that is a power of two, that
    product is the quotient of the size by the extent, and the result is
    [computeGranularity (M / mt)]. *)
Theorem tile_granularity_formula :
  (forall (v : float) (problem : ContractionProblem),
      Tile0Granularity.call G {| Tile0Granularity.value := v |} problem
      = (a <- freeSizeA problem 0%N ;; Ok (G (mul (of_size a) v))))
  /\ (forall (v : float) (problem : ContractionProblem),
         Tile1Granularity.call G {| Tile1Granularity.value := v |} problem
         = (b <- freeSizeB problem 0%N ;; Ok (G (mul (of_size b) v))))
  /\ (forall (k M : N) (problem : ContractionProblem),
         (k < 64)%N ->
         freeSizeA problem 0%N = Ok M ->
         Tile0Granularity.call G
           {| Tile0Granularity.value := ratio 1 (2 ^ k) |} problem
         = Ok (G (ratio M (2 ^ k))))
  /\ (forall (k M : N) (problem : ContractionProblem),
         (k < 64)%N ->
         freeSizeB problem 0%N = Ok M ->
         Tile1Granularity.call G
           {| Tile1Granularity.value := ratio 1 (2 ^ k) |} problem
         = Ok (G (ratio M (2 ^ k)))).
Proof.
  split; [ | split; [ | split]].
  - intros v problem. reflexivity.
  - intros v problem. reflexivity.
  - intros k M problem Hk HA.
    unfold Tile0Granularity.call. cbn [Tile0Granularity.value].
    rewrite HA. cbn [bind]. rewrite mul_ratio_pow2 by exact Hk. reflexivity.
  - intros k M problem Hk HB.
    unfold Tile1Granularity.call. cbn [Tile1Granularity.value].
    rewrite HB. cbn [bind]. rewrite mul_ratio_pow2 by exact Hk. reflexivity.
Qed.

(** C4. An indexed feature returns the size the accessor gives at its
    index, converted to [float], and nothing else: [FreeSizeA] reads
    [freeSizeA], [FreeSizeB] reads [freeSizeB] and [BoundSize] reads
    [boundSize]. *)
Theorem indexed_features_convert (i : N) (problem : ContractionProblem) :
  (FreeSizeA.call {| FreeSizeA.index := i |} problem
   = fmap of_size (freeSizeA problem i)
   /\ FreeSizeB.call {| FreeSizeB.index := i |} problem
      = fmap of_size (freeSizeB problem i)
   /\ BoundSize.call {| BoundSize.index := i |} problem
      = fmap of_size (boundSize problem i))
  /\ (forall s : N,
         (freeSizeA problem i = Ok s ->
          FreeSizeA.call {| FreeSizeA.index := i |} problem = Ok (of_size s))
         /\ (freeSizeB problem i = Ok s ->
             FreeSizeB.call {| FreeSizeB.index := i |} problem = Ok (of_size s))
         /\ (boundSize problem i = Ok s ->
             BoundSize.call {| BoundSize.index := i |} problem = Ok (of_size s))).
Proof.
  split; [repeat split | ].
  intro s. unfold FreeSizeA.call, FreeSizeB.call, BoundSize.call.
  cbn [FreeSizeA.index FreeSizeB.index BoundSize.index].
  repeat split; intros ->; reflexivity.
Qed.

Lemma read_only_ret {T A : Type} (a : A) : read_only (@ret T A a).
Proof. intro mem. reflexivity. Qed.

Lemma read_only_seq {T A B : Type} (c : Exec T A) (k : A -> Exec T B) :
  read_only c -> (forall a, read_only (k a)) -> read_only (seq c k).
Proof.
  intros Hc Hk mem. unfold seq. specialize (Hc mem).
  destruct (c mem) as [[a | e] mem']; cbn [snd] in *; subst mem';
    [apply Hk | reflexivity].
Qed.

Lemma read_only_load_this {T : Type} : read_only (@load_this T).
Proof. intro mem. reflexivity. Qed.

Lemma read_only_call_freeSizeA {T : Type} (idx : N) :
  read_only (@call_freeSizeA T idx).
Proof. intro mem. reflexivity. Qed.

Lemma read_only_call_freeSizeB {T : Type} (idx : N) :
  read_only (@call_freeSizeB T idx).
Proof. intro mem. reflexivity. Qed.

Lemma read_only_call_boundSize {T : Type} (idx : N) :
  read_only (@call_boundSize T idx).
Proof. intro mem. reflexivity. Qed.

(** A body made of reads, accessor calls and returns is read-only. *)
Ltac read_only_body :=
  repeat first
    [ apply read_only_ret
    | apply read_only_load_this
    | apply read_only_call_freeSizeA
    | apply read_only_call_freeSizeB
    | apply read_only_call_boundSize
    | apply read_only_seq; [ | intro ] ].

(** Running a body gives what the member function gives on the two
    objects. *)
Ltac computes_body :=
  let mem := fresh "mem" in
  intro mem;
  repeat match goal with
  | |- context [freeSizeA ?p ?i] => destruct (freeSizeA p i); cbn
  | |- context [freeSizeB ?p ?i] => destruct (freeSizeB p i); cbn
  | |- context [boundSize ?p ?i] => destruct (boundSize p i); cbn
  end;
  reflexivity.

(** C6. Evaluation is deterministic and without side effects.  Each of the
    seven [operator()] bodies, run on a memory in which the feature, the
    problem and anything else could be written, leaves the memory as it
    found it, also when it ends in an exception; and its outcome is the
    function of the feature's configuration and the problem that
    [evaluate] computes.  So a second call returns what the first one
    returned, and nothing kept elsewhere changes the result. *)
Theorem evaluation_pure :
  (read_only InMemory.FreeSizeA_call
   /\ computes InMemory.FreeSizeA_call FreeSizeA.call)
  /\ (read_only InMemory.FreeSizeB_call
      /\ computes InMemory.FreeSizeB_call FreeSizeB.call)
  /\ (read_only InMemory.BoundSize_call
      /\ computes InMemory.BoundSize_call BoundSize.call)
  /\ (read_only (InMemory.Tile0Granularity_call G)
      /\ computes (InMemory.Tile0Granularity_call G) (Tile0Granularity.call G))
  /\ (read_only (InMemory.Tile1Granularity_call G)
      /\ computes (InMemory.Tile1Granularity_call G) (Tile1Granularity.call G))
  /\ (read_only (InMemory.CUGranularity_call G)
      /\ computes (InMemory.CUGranularity_call G) (CUGranularity.call G))
  /\ (read_only InMemory.WavesPerSIMD_call
      /\ computes InMemory.WavesPerSIMD_call WavesPerSIMD.call)
  /\ (forall (T : Type) (c : Exec T float)
             (f : T -> ContractionProblem -> result float),
         read_only c -> computes c f ->
         forall mem : Memory T,
           c (snd (c mem)) = c mem
           /\ (forall mem' : Memory T,
                  this_object mem' = this_object mem ->
                  problem_object mem' = problem_object mem ->
                  fst (c mem') = fst (c mem))).
Proof.
  repeat match goal with |- _ /\ _ => split end.
  - unfold InMemory.FreeSizeA_call. read_only_body.
  - unfold computes, InMemory.FreeSizeA_call, FreeSizeA.call,
      seq, load_this, call_freeSizeA, ret; cbn. computes_body.
  - unfold InMemory.FreeSizeB_call. read_only_body.
  - unfold computes, InMemory.FreeSizeB_call, FreeSizeB.call,
      seq, load_this, call_freeSizeB, ret; cbn. computes_body.
  - unfold InMemory.BoundSize_call. read_only_body.
  - unfold computes, InMemory.BoundSize_call, BoundSize.call,
      seq, load_this, call_boundSize, ret; cbn. computes_body.
  - unfold InMemory.Tile0Granularity_call. read_only_body.
  - unfold computes, InMemory.Tile0Granularity_call, Tile0Granularity.call,
      seq, load_this, call_freeSizeA, ret; cbn. computes_body.
  - unfold InMemory.Tile1Granularity_call. read_only_body.
  - unfold computes, InMemory.Tile1Granularity_call, Tile1Granularity.call,
      seq, load_this, call_freeSizeB, ret; cbn. computes_body.
  - unfold InMemory.CUGranularity_call. read_only_body.
  - unfold computes, InMemory.CUGranularity_call, CUGranularity.call,
      seq, load_this, call_freeSizeA, call_freeSizeB, ret; cbn. computes_body.
  - unfold InMemory.WavesPerSIMD_call. read_only_body.
  - unfold computes, InMemory.WavesPerSIMD_call, WavesPerSIMD.call,
      seq, load_this, call_freeSizeA, call_freeSizeB, ret; cbn. computes_body.
  - intros T c f Hr Hc mem. split.
    + rewrite (Hr mem). reflexivity.
    + intros mem' Ht Hp. rewrite !Hc, Ht, Hp. reflexivity.
Qed.

(** A body that wrote the feature, the problem or a value elsewhere would
    not be read-only: the property is one of the bodies, not of the
    memory. *)
Lemma writes_are_seen :
  ~ read_only (@store_this FreeSizeA.t {| FreeSizeA.index := 1 |})
  /\ ~ read_only (@store_problem FreeSizeA.t (problem_with 1 1 [] [] []))
  /\ ~ read_only (@keep FreeSizeA.t one).
Proof.
  repeat split; intro H;
    specialize (H {| this_object := {| FreeSizeA.index := 0 |};
                     problem_object := problem_with 0 0 [] [] [];
                     elsewhere := [] |});
    discriminate H.
Qed.

(** C7. The seven type names are pairwise distinct, and the name of an
    object is the name of its class, whatever its configuration. *)
Theorem type_names_distinct :
  NoDup (map Type_of all_kinds)
  /\ (forall k1 k2 : Kind, Type_of k1 = Type_of k2 -> k1 = k2)
  /\ (forall f : MLFeature, type f = Type_of (kind_of f))
  /\ (forall f g : MLFeature, kind_of f = kind_of g -> type f = type g).
Proof.
  split; [ | split; [ | split]].
  - repeat constructor; cbn; intuition discriminate.
  - intros [] []; cbn; intro E; try reflexivity; discriminate E.
  - intros []; reflexivity.
  - intros [] []; cbn; intro E; try reflexivity; discriminate E.
Qed.

Lemma at_out_of_range (v : list N) (i : N) :
  (N.of_nat (List.length v) <= i)%N ->
  at_ v i = Throw (OutOfRange i (N.of_nat (List.length v))).
Proof.
  intro H. unfold at_.
  assert (E : nth_error v (N.to_nat i) = None) by (apply nth_error_None; lia).
  rewrite E. reflexivity.
Qed.

(** C8. An indexed feature checks no index itself: it fails exactly when
    the accessor fails at its index, and with the accessor's own exception;
    for an index out of range that is the out-of-bounds exception.  No
    feature of any kind raises an exception that is not the one an accessor
    of the problem raised. *)
Theorem indexed_features_propagate :
  (forall (i : N) (problem : ContractionProblem) (e : exn),
      (FreeSizeA.call {| FreeSizeA.index := i |} problem = Throw e
       <-> freeSizeA problem i = Throw e)
      /\ (FreeSizeB.call {| FreeSizeB.index := i |} problem = Throw e
          <-> freeSizeB problem i = Throw e)
      /\ (BoundSize.call {| BoundSize.index := i |} problem = Throw e
          <-> boundSize problem i = Throw e))
  /\ (forall (i : N) (problem : ContractionProblem),
         (N.of_nat (List.length (freeSizesA problem)) <= i)%N ->
         FreeSizeA.call {| FreeSizeA.index := i |} problem
         = Throw (OutOfRange i (N.of_nat (List.length (freeSizesA problem)))))
  /\ (forall (i : N) (problem : ContractionProblem),
         (N.of_nat (List.length (freeSizesB problem)) <= i)%N ->
         FreeSizeB.call {| FreeSizeB.index := i |} problem
         = Throw (OutOfRange i (N.of_nat (List.length (freeSizesB problem)))))
  /\ (forall (i : N) (problem : ContractionProblem),
         (N.of_nat (List.length (boundSizes problem)) <= i)%N ->
         BoundSize.call {| BoundSize.index := i |} problem
         = Throw (OutOfRange i (N.of_nat (List.length (boundSizes problem)))))
  /\ (forall (f : MLFeature) (problem : ContractionProblem) (e : exn),
         evaluate G f problem = Throw e ->
         exists i : N,
           freeSizeA problem i = Throw e
           \/ freeSizeB problem i = Throw e
           \/ boundSize problem i = Throw e)
  /\ (forall (f : MLFeature) (problem : ContractionProblem) (a b : N),
         HasValue_of (kind_of f) = true ->
         freeSizeA problem 0%N = Ok a ->
         freeSizeB problem 0%N = Ok b ->
         exists v : float, evaluate G f problem = Ok v).
Proof.
  split; [ | split; [ | split; [ | split; [ | split]]]];
    [ | | | | | intros f problem a b Hk HA HB;
              destruct f as [f | f | f | f | f | f | f]; try discriminate Hk;
              cbn [evaluate];
              unfold Tile0Granularity.call, Tile1Granularity.call,
                CUGranularity.call, WavesPerSIMD.call;
              rewrite ?HA, ?HB; cbn [bind]; eexists; reflexivity ].
  - intros i problem e.
    unfold FreeSizeA.call, FreeSizeB.call, BoundSize.call.
    cbn [FreeSizeA.index FreeSizeB.index BoundSize.index].
    destruct (freeSizeA problem i), (freeSizeB problem i), (boundSize problem i);
      cbn [bind]; repeat split; intro H; try discriminate H; congruence.
  - intros i problem H. unfold FreeSizeA.call, freeSizeA. cbn [FreeSizeA.index].
    rewrite at_out_of_range by exact H. reflexivity.
  - intros i problem H. unfold FreeSizeB.call, freeSizeB. cbn [FreeSizeB.index].
    rewrite at_out_of_range by exact H. reflexivity.
  - intros i problem H. unfold BoundSize.call, boundSize. cbn [BoundSize.index].
    rewrite at_out_of_range by exact H. reflexivity.
  - intros f problem e.
    destruct f as [f | f | f | f | f | f | f]; cbn [evaluate];
      unfold FreeSizeA.call, FreeSizeB.call, BoundSize.call,
        Tile0Granularity.call, Tile1Granularity.call,
        CUGranularity.call, WavesPerSIMD.call.
    + destruct (freeSizeA problem (FreeSizeA.index f)) eqn:E; cbn [bind];
        intro H; [discriminate H | ].
      exists (FreeSizeA.index f). left. congruence.
    + destruct (freeSizeB problem (FreeSizeB.index f)) eqn:E; cbn [bind];
        intro H; [discriminate H | ].
      exists (FreeSizeB.index f). right. left. congruence.
    + destruct (boundSize problem (BoundSize.index f)) eqn:E; cbn [bind];
        intro H; [discriminate H | ].
      exists (BoundSize.index f). right. right. congruence.
    + destruct (freeSizeA problem 0%N) eqn:E; cbn [bind];
        intro H; [discriminate H | ].
      exists 0%N. left. congruence.
    + destruct (freeSizeB problem 0%N) eqn:E; cbn [bind];
        intro H; [discriminate H | ].
      exists 0%N. right. left. congruence.
    + destruct (freeSizeA problem 0%N) eqn:EA; cbn [bind];
        [ | intro H; exists 0%N; left; congruence].
      destruct (freeSizeB problem 0%N) eqn:EB; cbn [bind];
        intro H; [discriminate H | ].
      exists 0%N. right. left. congruence.
    + destruct (freeSizeA problem 0%N) eqn:EA; cbn [bind];
        [ | intro H; exists 0%N; left; congruence].
      destruct (freeSizeB problem 0%N) eqn:EB; cbn [bind];
        intro H; [discriminate H | ].
      exists 0%N. right. left. congruence.
Qed.

(** C5, as amended.  Let the relevant free size be 0 and the scale factors
    be finite and not negative.  Then the tile count is [+0], nothing is
    divided and nothing fails: the tile granularities return
    [computeGranularity (+0)]; so does [CUGranularity], and [WavesPerSIMD]
    returns [+0], when in addition the other free size is there and the
    tile count of the other dimension does not overflow. *)
Theorem zero_size_boundary :
  (forall (v : float) (problem : ContractionProblem),
      is_finite_nonneg v = true ->
      freeSizeA problem 0%N = Ok 0%N ->
      mul (of_size 0) v = S754_zero false
      /\ Tile0Granularity.call G {| Tile0Granularity.value := v |} problem
         = Ok (G (S754_zero false)))
  /\ (forall (v : float) (problem : ContractionProblem),
         is_finite_nonneg v = true ->
         freeSizeB problem 0%N = Ok 0%N ->
         mul (of_size 0) v = S754_zero false
         /\ Tile1Granularity.call G {| Tile1Granularity.value := v |} problem
            = Ok (G (S754_zero false)))
  /\ (forall (value : GranularityScaleFactors) (problem : ContractionProblem)
             (b : N),
         finite_nonneg_scale value = true ->
         freeSizeA problem 0%N = Ok 0%N ->
         freeSizeB problem 0%N = Ok b ->
         is_finite (mul (of_size b) (mt1_scale value)) = true ->
         CUGranularity.call G {| CUGranularity.value := value |} problem
         = Ok (G (S754_zero false))
         /\ WavesPerSIMD.call {| WavesPerSIMD.value := value |} problem
            = Ok (S754_zero false))
  /\ (forall (value : GranularityScaleFactors) (problem : ContractionProblem)
             (a : N),
         finite_nonneg_scale value = true ->
         freeSizeA problem 0%N = Ok a ->
         freeSizeB problem 0%N = Ok 0%N ->
         is_finite (mul (of_size a) (mt0_scale value)) = true ->
         CUGranularity.call G {| CUGranularity.value := value |} problem
         = Ok (G (S754_zero false))
         /\ WavesPerSIMD.call {| WavesPerSIMD.value := value |} problem
            = Ok (S754_zero false)).
Proof.
  split; [ | split; [ | split]].
  - intros v problem Hv HA.
    pose proof (mul_zero_l v Hv) as E. split; [exact E | ].
    unfold Tile0Granularity.call. cbn [Tile0Granularity.value].
    rewrite HA. cbn [bind]. change (of_size 0) with (S754_zero false).
    rewrite E. reflexivity.
  - intros v problem Hv HB.
    pose proof (mul_zero_l v Hv) as E. split; [exact E | ].
    unfold Tile1Granularity.call. cbn [Tile1Granularity.value].
    rewrite HB. cbn [bind]. change (of_size 0) with (S754_zero false).
    rewrite E. reflexivity.
  - intros value problem b Hs HA HB Hf.
    unfold finite_nonneg_scale in Hs.
    apply andb_true_iff in Hs. destruct Hs as [Hs H2].
    apply andb_true_iff in Hs. destruct Hs as [H0 H1].
    assert (Hc : is_finite_nonneg (ceil (mul (of_size b) (mt1_scale value)))
                 = true).
    { apply ceil_finite_nonneg; [apply mul_of_size_valid | ].
      apply mul_of_size_nonneg; assumption. }
    assert (Ez : mul (mul (ceil (mul (of_size 0) (mt0_scale value)))
                          (ceil (mul (of_size b) (mt1_scale value))))
                     (devSolScale value) = S754_zero false).
    { change (of_size 0) with (S754_zero false).
      rewrite (mul_zero_l _ H0). change (ceil (S754_zero false)) with (S754_zero false).
      rewrite mul_zero_l; [apply mul_zero_l, H2 | exact Hc]. }
    unfold CUGranularity.call, WavesPerSIMD.call.
    cbn [CUGranularity.value WavesPerSIMD.value].
    rewrite HA, HB. cbn [bind]. rewrite Ez. split; [ | reflexivity].
    rewrite tile_count_times_one, tile_count_in_double.
    change (of_size 0) with (S754_zero false). rewrite (mul_zero_l _ H0).
    change (Binary64.of_float (ceil (S754_zero false))) with (S754_zero false).
    rewrite (dmul_zero_l _ Hc), (dmul_zero_l _ H2). reflexivity.
  - intros value problem a Hs HA HB Hf.
    unfold finite_nonneg_scale in Hs.
    apply andb_true_iff in Hs. destruct Hs as [Hs H2].
    apply andb_true_iff in Hs. destruct Hs as [H0 H1].
    assert (Hc : is_finite_nonneg (ceil (mul (of_size a) (mt0_scale value)))
                 = true).
    { apply ceil_finite_nonneg; [apply mul_of_size_valid | ].
      apply mul_of_size_nonneg; assumption. }
    assert (Ez : mul (mul (ceil (mul (of_size a) (mt0_scale value)))
                          (ceil (mul (of_size 0) (mt1_scale value))))
                     (devSolScale value) = S754_zero false).
    { change (of_size 0) with (S754_zero false).
      rewrite (mul_zero_l _ H1). change (ceil (S754_zero false)) with (S754_zero false).
      rewrite mul_zero_r; [apply mul_zero_l, H2 | exact Hc]. }
    unfold CUGranularity.call, WavesPerSIMD.call.
    cbn [CUGranularity.value WavesPerSIMD.value].
    rewrite HA, HB. cbn [bind]. rewrite Ez. split; [ | reflexivity].
    rewrite tile_count_times_one, tile_count_in_double.
    change (of_size 0) with (S754_zero false). rewrite (mul_zero_l _ H1).
    change (Binary64.of_float (ceil (S754_zero false))) with (S754_zero false).
    rewrite (dmul_zero_r _ Hc), (dmul_zero_l _ H2). reflexivity.
Qed.

(** C9, as amended.  With the same scale factors, and when the product
    of the two tile counts is a float, [CUGranularity] is
    [computeGranularity] applied to what [WavesPerSIMD] returns: the factor
    [NumBatches = 1] changes nothing, and taking the product in [double]
    loses nothing. *)
Theorem CUGranularity_of_WavesPerSIMD
    (value : GranularityScaleFactors) (problem : ContractionProblem) :
  valid (devSolScale value) = true ->
  (forall a b : N,
      freeSizeA problem 0%N = Ok a ->
      freeSizeB problem 0%N = Ok b ->
      product_exact (ceil (mul (of_size a) (mt0_scale value)))
                    (ceil (mul (of_size b) (mt1_scale value)))) ->
  CUGranularity.call G {| CUGranularity.value := value |} problem
  = fmap G (WavesPerSIMD.call {| WavesPerSIMD.value := value |} problem).
Proof.
  intros Hd He.
  unfold CUGranularity.call, WavesPerSIMD.call, fmap.
  cbn [CUGranularity.value WavesPerSIMD.value].
  destruct (freeSizeA problem 0%N) as [a | e]; [ | reflexivity].
  destruct (freeSizeB problem 0%N) as [b | e]; [ | reflexivity].
  cbn [bind].
  rewrite (tilesPerCu_exact a b _ _ _ Hd (He a b eq_refl eq_refl)).
  reflexivity.
Qed.

(** C10. A feature that carries a value (the two tile granularities,
    [CUGranularity] and [WavesPerSIMD]) reads the problem through
    [freeSizeA(0)] and [freeSizeB(0)] only: two problems that agree there
    get the same result. *)
Theorem derived_features_read_first_free_sizes
    (f : MLFeature) (p1 p2 : ContractionProblem) :
  HasValue_of (kind_of f) = true ->
  freeSizeA p1 0%N = freeSizeA p2 0%N ->
  freeSizeB p1 0%N = freeSizeB p2 0%N ->
  evaluate G f p1 = evaluate G f p2.
Proof.
  intros Hk HA HB.
  destruct f as [f | f | f | f | f | f | f]; try discriminate Hk;
    cbn [evaluate];
    unfold Tile0Granularity.call, Tile1Granularity.call,
      CUGranularity.call, WavesPerSIMD.call;
    rewrite ?HA, ?HB; reflexivity.
Qed.

End Features.

Lemma WavesPerSIMD_raw_witness :
  CUGranularity.call ceil {| CUGranularity.value := example_scale |}
    (problem_with 5 3 [] [] [])
  <> WavesPerSIMD.call {| WavesPerSIMD.value := example_scale |}
       (problem_with 5 3 [] [] []).
Proof.
  apply (proj2 (proj2 (WavesPerSIMD_raw ceil)) example_scale
           (problem_with 5 3 [] [] []) 5%N 3%N (ratio 3 10));
    try reflexivity.
  vm_compute. discriminate.
Defined.

(** C2, as stated, fails when the product of the tile counts is not a
    float: with sizes 4097 and 4097, scales 1 and 1 and [devSolScale] 3 the
    count of [WavesPerSIMD] is 50356224 and that of [CUGranularity] is
    50356228, and a [computeGranularity] that sends the second to the first
    and the first to 0 moves the count of [WavesPerSIMD] and still makes the
    two features return the same value. *)
Lemma WavesPerSIMD_raw_counterexample :
  let G := fun x : float =>
             if SFeqb x (S754_finite false 12589057 2)
             then S754_finite false 12589056 2
             else S754_zero false in
  let value := {| mt0_scale := one; mt1_scale := one;
                  devSolScale := of_size 3 |} in
  let problem := problem_with 4097 4097 [] [] [] in
  WavesPerSIMD.call {| WavesPerSIMD.value := value |} problem
  = Ok (S754_finite false 12589056 2)
  /\ G (S754_finite false 12589056 2) <> S754_finite false 12589056 2
  /\ G (S754_finite false 12589057 2) <> S754_finite false 12589057 2
  /\ CUGranularity.call G {| CUGranularity.value := value |} problem
     = WavesPerSIMD.call {| WavesPerSIMD.value := value |} problem.
Proof.
  repeat split; try reflexivity; vm_compute; discriminate.
Qed.

(** The product of [CUGranularity] does not overflow where a [float]
    product would: with sizes 1 and 1, both tile scales the largest float
    and [devSolScale] the least positive one, the result is finite. *)
Example CUGranularity_range_of_double :
  CUGranularity.call (fun x => x)
    {| CUGranularity.value :=
        {| mt0_scale := S754_finite false 16777215 104;
           mt1_scale := S754_finite false 16777215 104;
           devSolScale := S754_finite false 1 (-149) |} |}
    (problem_with 1 1 [] [] [])
  = Ok (S754_finite false 16777214 83).
Proof. reflexivity. Qed.

(** C9, as stated, fails on the same input, where the product of the tile
    counts, 16785409, is not a float: [CUGranularity] passes 50356228 to
    [computeGranularity] and [WavesPerSIMD] returns 50356224.  It fails as
    well for sizes 262208 and 262208, tile extents 64 and [devSolScale]
    1/104. *)
Lemma CUGranularity_of_WavesPerSIMD_counterexample :
  (let value := {| mt0_scale := one; mt1_scale := one;
                   devSolScale := of_size 3 |} in
   let problem := problem_with 4097 4097 [] [] [] in
   CUGranularity.call (fun x => x) {| CUGranularity.value := value |} problem
   = Ok (S754_finite false 12589057 2)
   /\ fmap (fun x => x)
        (WavesPerSIMD.call {| WavesPerSIMD.value := value |} problem)
      = Ok (S754_finite false 12589056 2))
  /\ (let value := {| mt0_scale := ratio 1 64; mt1_scale := ratio 1 64;
                      devSolScale := ratio 1 104 |} in
      let problem := problem_with 262208 262208 [] [] [] in
      CUGranularity.call (fun x => x) {| CUGranularity.value := value |} problem
      <> fmap (fun x => x)
           (WavesPerSIMD.call {| WavesPerSIMD.value := value |} problem)).
Proof.
  repeat split; try reflexivity. vm_compute. discriminate.
Qed.

Lemma CUGranularity_of_WavesPerSIMD_witness :
  CUGranularity.call ceil {| CUGranularity.value := example_scale |}
    (problem_with 5 3 [] [] [])
  = fmap ceil
      (WavesPerSIMD.call {| WavesPerSIMD.value := example_scale |}
         (problem_with 5 3 [] [] [])).
Proof.
  apply (CUGranularity_of_WavesPerSIMD ceil example_scale
           (problem_with 5 3 [] [] [])).
  - reflexivity.
  - intros a b HA HB. injection HA as <-. injection HB as <-. reflexivity.
Defined.

Lemma evaluation_pure_witness :
  let mem := {| this_object := {| FreeSizeA.index := 0 |};
                problem_object := problem_with 5 3 [] [] [];
                elsewhere := [ratio 1 10] |} in
  InMemory.FreeSizeA_call (snd (InMemory.FreeSizeA_call mem))
  = InMemory.FreeSizeA_call mem
  /\ (forall mem' : Memory FreeSizeA.t,
         this_object mem' = this_object mem ->
         problem_object mem' = problem_object mem ->
         fst (InMemory.FreeSizeA_call mem') = fst (InMemory.FreeSizeA_call mem)).
Proof.
  intro mem.
  exact (proj2 (proj2 (proj2 (proj2 (proj2 (proj2 (proj2
           (evaluation_pure ceil)))))))
         FreeSizeA.t InMemory.FreeSizeA_call FreeSizeA.call
         (proj1 (proj1 (evaluation_pure ceil)))
         (proj2 (proj1 (evaluation_pure ceil))) mem).
Defined.

Lemma type_names_distinct_witness :
  type (AFreeSizeA {| FreeSizeA.index := 0 |})
  = type (AFreeSizeA {| FreeSizeA.index := 5 |}).
Proof.
  apply (proj2 (proj2 (proj2 type_names_distinct))). reflexivity.
Defined.

Lemma indexed_features_convert_witness :
  BoundSize.call {| BoundSize.index := 1 |}
    {| freeSizesA := [5]; freeSizesB := [3]; boundSizes := [8; 16777217] |}%N
  = Ok (of_size 16777217).
Proof.
  apply (proj2 (indexed_features_convert 1%N
                  {| freeSizesA := [5]; freeSizesB := [3];
                     boundSizes := [8; 16777217] |}%N) 16777217%N).
  reflexivity.
Defined.

Lemma indexed_features_propagate_witness :
  FreeSizeA.call {| FreeSizeA.index := 2 |} (problem_with 5 3 [] [] [])
  = Throw (OutOfRange 2 1).
Proof.
  apply (proj1 (proj2 (indexed_features_propagate ceil)) 2%N
           (problem_with 5 3 [] [] [])).
  vm_compute. discriminate.
Defined.

Lemma derived_features_read_first_free_sizes_witness :
  evaluate ceil
    (ACUGranularity {| CUGranularity.value := example_scale |})
    {| freeSizesA := [5; 7]; freeSizesB := [3]; boundSizes := [8] |}%N
  = evaluate ceil
      (ACUGranularity {| CUGranularity.value := example_scale |})
      {| freeSizesA := [5]; freeSizesB := [3; 9; 9]; boundSizes := [1; 2] |}%N.
Proof.
  apply derived_features_read_first_free_sizes; reflexivity.
Defined.

(** C5, as stated, fails outside that domain.  With an infinite scale the
    tile count of a size 0 is NaN; with finite scales it is NaN as well in
    [CUGranularity] once the tile count of the other dimension overflows;
    with a negative scale it is [-0], which a [computeGranularity] such as
    [1 / x] tells from [+0]. *)
Lemma zero_size_boundary_counterexample :
  (mul (of_size 0) (S754_infinity false) = S754_nan
   /\ Tile0Granularity.call (fun x => x)
        {| Tile0Granularity.value := S754_infinity false |}
        (problem_with 0 3 [] [] [])
      <> Ok (S754_zero false))
  /\ (is_finite_nonneg (of_size (2 ^ 64)) = true
      /\ CUGranularity.call (fun x => x)
           {| CUGranularity.value :=
               {| mt0_scale := ratio 1 2; mt1_scale := of_size (2 ^ 64);
                  devSolScale := ratio 1 10 |} |}
           (problem_with 0 (2 ^ 64 - 1) [] [] [])
         = Ok S754_nan)
  /\ (Tile0Granularity.call (div one)
        {| Tile0Granularity.value := SFopp (ratio 1 2) |}
        (problem_with 0 3 [] [] [])
      = Ok (S754_infinity true)
      /\ div one (S754_zero false) = S754_infinity false).
Proof.
  repeat split; try reflexivity. vm_compute. discriminate.
Qed.

Lemma zero_size_boundary_witness :
  CUGranularity.call ceil {| CUGranularity.value := example_scale |}
    (problem_with 0 3 [] [] [])
  = Ok (ceil (S754_zero false))
  /\ WavesPerSIMD.call {| WavesPerSIMD.value := example_scale |}
       (problem_with 0 3 [] [] [])
     = Ok (S754_zero false).
Proof.
  apply (proj1 (proj2 (proj2 (zero_size_boundary ceil))) example_scale
           (problem_with 0 3 [] [] []) 3%N); reflexivity.
Defined.

(** C3, as stated, fails for a tile extent that is not a power of two: with
    [M = 5] and [mt0 = 3] the product [5 * (1/3)] and the quotient [5 / 3]
    round to neighbouring floats, and a [computeGranularity] such as
    [x / ceil x] tells them apart. *)
Lemma tile_granularity_counterexample :
  mul (of_size 5) (ratio 1 3) = S754_finite false 13981014 (-23)
  /\ ratio 5 3 = S754_finite false 13981013 (-23)
  /\ Tile0Granularity.call (fun x => div x (ceil x))
       {| Tile0Granularity.value := ratio 1 3 |} (problem_with 5 3 [] [] [])
     <> Ok (div (ratio 5 3) (ceil (ratio 5 3)))
  /\ Tile1Granularity.call (fun x => div x (ceil x))
       {| Tile1Granularity.value := ratio 1 3 |} (problem_with 3 5 [] [] [])
     <> Ok (div (ratio 5 3) (ceil (ratio 5 3))).
Proof.
  repeat split; try reflexivity; vm_compute; discriminate.
Qed.

Lemma tile_granularity_formula_witness :
  Tile0Granularity.call ceil
    {| Tile0Granularity.value := ratio 1 (2 ^ 4) |} (problem_with 40 3 [] [] [])
  = Ok (ceil (ratio 40 (2 ^ 4))).
Proof.
  apply (proj1 (proj2 (proj2 (tile_granularity_formula ceil))) 4%N 40%N
           (problem_with 40 3 [] [] [])).
  - reflexivity.
  - reflexivity.
Defined.

(** ** Further properties of the features *)

Section MoreFeatures.

(** [ContractionSolution::computeGranularity], whatever it is. *)
Variable G : float -> float.

(** *** The accessors *)

Lemma at_zero_throw (v : list N) (e : exn) :
  at_ v 0%N = Throw e -> e = OutOfRange 0 0.
Proof.
  destruct v as [ | x v]; cbn; intro H; [ | discriminate H].
  injection H as <-. reflexivity.
Qed.

Lemma at_app (v w : list N) (i s : N) :
  at_ v i = Ok s -> at_ (v ++ w) i = Ok s.
Proof.
  unfold at_. destruct (nth_error v (N.to_nat i)) as [x | ] eqn:E;
    intro H; [ | discriminate H].
  rewrite nth_error_app1, E; [exact H | ].
  apply nth_error_Some. rewrite E. discriminate.
Qed.

Lemma at_in_range (v : list N) (i : N) :
  (i < N.of_nat (List.length v))%N -> exists s : N, at_ v i = Ok s.
Proof.
  intro H. unfold at_.
  destruct (nth_error v (N.to_nat i)) as [x | ] eqn:E; [exists x; reflexivity | ].
  apply nth_error_None in E. lia.
Qed.

Lemma at_ok_in_range (v : list N) (i s : N) :
  at_ v i = Ok s -> (i < N.of_nat (List.length v))%N.
Proof.
  unfold at_. destruct (nth_error v (N.to_nat i)) as [x | ] eqn:E;
    intro H; [ | discriminate H].
  assert (N.to_nat i < List.length v)%nat
    by (apply nth_error_Some; rewrite E; discriminate).
  lia.
Qed.

Lemma at_throw_out_of_range (v : list N) (i : N) (e : exn) :
  at_ v i = Throw e ->
  e = OutOfRange i (N.of_nat (List.length v))
  /\ (N.of_nat (List.length v) <= i)%N.
Proof.
  unfold at_. destruct (nth_error v (N.to_nat i)) as [x | ] eqn:E;
    intro H; [discriminate H | ].
  injection H as <-. apply nth_error_None in E. split; [reflexivity | lia].
Qed.

(** *** Precision of the indexed features *)

(** X1. Up to [2 ^ 24] an indexed feature loses nothing of the size it
    reads: two problems get the same value only when the sizes at the index
    are the same.  Above, sizes collide: [2 ^ 24 + 1] gets the value of
    [2 ^ 24]. *)
Theorem indexed_features_injective
    (i : N) (p1 p2 : ContractionProblem) (s1 s2 : N) :
  (s1 <= 2 ^ 24)%N -> (s2 <= 2 ^ 24)%N ->
  (freeSizeA p1 i = Ok s1 -> freeSizeA p2 i = Ok s2 ->
   FreeSizeA.call {| FreeSizeA.index := i |} p1
   = FreeSizeA.call {| FreeSizeA.index := i |} p2 ->
   s1 = s2)
  /\ (freeSizeB p1 i = Ok s1 -> freeSizeB p2 i = Ok s2 ->
      FreeSizeB.call {| FreeSizeB.index := i |} p1
      = FreeSizeB.call {| FreeSizeB.index := i |} p2 ->
      s1 = s2)
  /\ (boundSize p1 i = Ok s1 -> boundSize p2 i = Ok s2 ->
      BoundSize.call {| BoundSize.index := i |} p1
      = BoundSize.call {| BoundSize.index := i |} p2 ->
      s1 = s2)
  /\ FreeSizeA.call {| FreeSizeA.index := 0 |}
       (problem_with (2 ^ 24 + 1) 1 [] [] [])
     = FreeSizeA.call {| FreeSizeA.index := 0 |}
         (problem_with (2 ^ 24) 1 [] [] []).
Proof.
  intros H1 H2.
  unfold FreeSizeA.call, FreeSizeB.call, BoundSize.call.
  cbn [FreeSizeA.index FreeSizeB.index BoundSize.index].
  repeat split; try reflexivity;
    intros -> -> E; cbn [bind] in E; injection E as E;
    apply of_size_inj; assumption.
Qed.

(** *** Not-a-number scale factors *)

Lemma mul_nan_r (x : float) : mul x S754_nan = S754_nan.
Proof. destruct x; reflexivity. Qed.

Lemma raw_count_nan (value : GranularityScaleFactors) (a b : N) :
  has_nan value = true ->
  mul (mul (ceil (mul (of_size a) (mt0_scale value)))
           (ceil (mul (of_size b) (mt1_scale value))))
      (devSolScale value)
  = S754_nan.
Proof.
  destruct value as [m0 m1 d]. unfold has_nan.
  cbn [mt0_scale mt1_scale devSolScale]. intro H.
  assert (C : m0 = S754_nan \/ m1 = S754_nan \/ d = S754_nan).
  { destruct m0; auto; destruct m1; auto; destruct d; auto; discriminate H. }
  destruct C as [-> | [-> | ->]].
  - rewrite mul_nan_r. reflexivity.
  - rewrite (mul_nan_r (of_size b)). cbn [ceil]. rewrite mul_nan_r. reflexivity.
  - apply mul_nan_r.
Qed.

Lemma tilesPerCu_nan (value : GranularityScaleFactors) (a b : N) :
  has_nan value = true ->
  Binary64.to_float
    (Binary64.mul
       (Binary64.mul
          (Binary64.mul (Binary64.of_float one)
             (Binary64.ceil
                (Binary64.of_float (mul (of_size a) (mt0_scale value)))))
          (Binary64.ceil
             (Binary64.of_float (mul (of_size b) (mt1_scale value)))))
       (Binary64.of_float (devSolScale value)))
  = S754_nan.
Proof.
  destruct value as [m0 m1 d]. unfold has_nan.
  cbn [mt0_scale mt1_scale devSolScale]. intro H.
  assert (C : m0 = S754_nan \/ m1 = S754_nan \/ d = S754_nan).
  { destruct m0; auto; destruct m1; auto; destruct d; auto; discriminate H. }
  rewrite tile_count_times_one, tile_count_in_double.
  destruct C as [-> | [-> | ->]].
  - rewrite mul_nan_r. reflexivity.
  - rewrite (mul_nan_r (of_size b)). cbn [ceil Binary64.of_float].
    rewrite dmul_nan_r. reflexivity.
  - cbn [Binary64.of_float]. rewrite dmul_nan_r. reflexivity.
Qed.

(** X2. A NaN among the scale factors is never masked: [WavesPerSIMD]
    returns NaN and [CUGranularity] returns [computeGranularity] of NaN,
    whatever the sizes; a tile granularity with a NaN value returns
    [computeGranularity] of NaN. *)
Theorem nan_scale_propagates :
  (forall (value : GranularityScaleFactors) (problem : ContractionProblem)
          (a b : N),
      has_nan value = true ->
      freeSizeA problem 0%N = Ok a ->
      freeSizeB problem 0%N = Ok b ->
      WavesPerSIMD.call {| WavesPerSIMD.value := value |} problem = Ok S754_nan
      /\ CUGranularity.call G {| CUGranularity.value := value |} problem
         = Ok (G S754_nan))
  /\ (forall (problem : ContractionProblem) (a : N),
         freeSizeA problem 0%N = Ok a ->
         Tile0Granularity.call G {| Tile0Granularity.value := S754_nan |} problem
         = Ok (G S754_nan))
  /\ (forall (problem : ContractionProblem) (b : N),
         freeSizeB problem 0%N = Ok b ->
         Tile1Granularity.call G {| Tile1Granularity.value := S754_nan |} problem
         = Ok (G S754_nan)).
Proof.
  split; [ | split].
  - intros value problem a b Hn HA HB.
    unfold WavesPerSIMD.call, CUGranularity.call.
    cbn [WavesPerSIMD.value CUGranularity.value].
    rewrite HA, HB. cbn [bind].
    rewrite (tilesPerCu_nan value a b Hn), (raw_count_nan value a b Hn).
    split; reflexivity.
  - intros problem a HA. unfold Tile0Granularity.call.
    cbn [Tile0Granularity.value]. rewrite HA. cbn [bind].
    rewrite mul_nan_r. reflexivity.
  - intros problem b HB. unfold Tile1Granularity.call.
    cbn [Tile1Granularity.value]. rewrite HB. cbn [bind].
    rewrite mul_nan_r. reflexivity.
Qed.

(** *** The two free dimensions are treated alike *)

(** X3. Exchanging the roles of the two free dimensions changes nothing:
    on the problem with the free sizes of A and B exchanged, the feature
    that reads the other family ([FreeSizeB] for [FreeSizeA],
    [Tile1Granularity] for [Tile0Granularity], and [CUGranularity] or
    [WavesPerSIMD] with [mt0_scale] and [mt1_scale] exchanged) returns what
    the feature returns on the problem, value or exception. *)
Theorem exchange_free_dimensions (f : MLFeature) (problem : ContractionProblem) :
  evaluate G (swap_feature f) (swap_problem problem) = evaluate G f problem.
Proof.
  destruct f as [f | f | f | f | f | f | f]; cbn [evaluate swap_feature];
    try reflexivity.
  - unfold CUGranularity.call.
    cbn [CUGranularity.value swap_scale mt0_scale mt1_scale devSolScale].
    change (freeSizeA (swap_problem problem) 0%N) with (freeSizeB problem 0%N).
    change (freeSizeB (swap_problem problem) 0%N) with (freeSizeA problem 0%N).
    destruct (freeSizeA problem 0%N) as [a | ea] eqn:EA,
             (freeSizeB problem 0%N) as [b | eb] eqn:EB; cbn [bind];
      try reflexivity.
    + rewrite !tile_count_times_one, !tile_count_in_double.
      rewrite (dmul_comm (Binary64.of_float (ceil (mul (of_size b) _)))).
      reflexivity.
    + apply at_zero_throw in EA, EB. congruence.
  - unfold WavesPerSIMD.call.
    cbn [WavesPerSIMD.value swap_scale mt0_scale mt1_scale devSolScale].
    change (freeSizeA (swap_problem problem) 0%N) with (freeSizeB problem 0%N).
    change (freeSizeB (swap_problem problem) 0%N) with (freeSizeA problem 0%N).
    destruct (freeSizeA problem 0%N) as [a | ea] eqn:EA,
             (freeSizeB problem 0%N) as [b | eb] eqn:EB; cbn [bind];
      try reflexivity.
    + rewrite (mul_comm (ceil (mul (of_size b) _))). reflexivity.
    + apply at_zero_throw in EA, EB. congruence.
Qed.

(** *** Problems with more dimensions *)

Lemma freeSizeA_extend problem xa xb xc (i s : N) :
  freeSizeA problem i = Ok s ->
  freeSizeA (extend_problem problem xa xb xc) i = Ok s.
Proof. apply at_app. Qed.

Lemma freeSizeB_extend problem xa xb xc (i s : N) :
  freeSizeB problem i = Ok s ->
  freeSizeB (extend_problem problem xa xb xc) i = Ok s.
Proof. apply at_app. Qed.

Lemma boundSize_extend problem xa xb xc (i s : N) :
  boundSize problem i = Ok s ->
  boundSize (extend_problem problem xa xb xc) i = Ok s.
Proof. apply at_app. Qed.

(** X4. A feature that has a value on a problem keeps it when the problem
    gets further free or bound dimensions after the ones it has. *)
Theorem extension_keeps_values
    (f : MLFeature) (problem : ContractionProblem) (xa xb xc : list N)
    (v : float) :
  evaluate G f problem = Ok v ->
  evaluate G f (extend_problem problem xa xb xc) = Ok v.
Proof.
  destruct f as [f | f | f | f | f | f | f]; cbn [evaluate];
    unfold FreeSizeA.call, FreeSizeB.call, BoundSize.call,
      Tile0Granularity.call, Tile1Granularity.call,
      CUGranularity.call, WavesPerSIMD.call.
  - destruct (freeSizeA problem _) as [s | e] eqn:E; [ | discriminate].
    rewrite (freeSizeA_extend _ xa xb xc _ _ E). trivial.
  - destruct (freeSizeB problem _) as [s | e] eqn:E; [ | discriminate].
    rewrite (freeSizeB_extend _ xa xb xc _ _ E). trivial.
  - destruct (boundSize problem _) as [s | e] eqn:E; [ | discriminate].
    rewrite (boundSize_extend _ xa xb xc _ _ E). trivial.
  - destruct (freeSizeA problem _) as [s | e] eqn:E; [ | discriminate].
    rewrite (freeSizeA_extend _ xa xb xc _ _ E). trivial.
  - destruct (freeSizeB problem _) as [s | e] eqn:E; [ | discriminate].
    rewrite (freeSizeB_extend _ xa xb xc _ _ E). trivial.
  - destruct (freeSizeA problem _) as [a | e] eqn:EA; [ | discriminate].
    destruct (freeSizeB problem _) as [b | e] eqn:EB; [ | discriminate].
    rewrite (freeSizeA_extend _ xa xb xc _ _ EA). cbn [bind].
    rewrite (freeSizeB_extend _ xa xb xc _ _ EB). trivial.
  - destruct (freeSizeA problem _) as [a | e] eqn:EA; [ | discriminate].
    destruct (freeSizeB problem _) as [b | e] eqn:EB; [ | discriminate].
    rewrite (freeSizeA_extend _ xa xb xc _ _ EA). cbn [bind].
    rewrite (freeSizeB_extend _ xa xb xc _ _ EB). trivial.
Qed.

(** *** Sizes that are whole numbers of tiles *)

(** X5. When the tile extents are powers of two, each free size is a
    whole number of tiles and there are fewer than [2 ^ 24] tiles in all,
    the tile counts and their product are exact: the tile granularities
    return [computeGranularity] of the number of tiles, [WavesPerSIMD]
    returns the number of tiles in all times [devSolScale], rounded once,
    and [CUGranularity] returns [computeGranularity] of that. *)
Theorem whole_tiles_exact
    (qa qb ka kb : N) (dev : float) (problem : ContractionProblem) :
  (qa < 2 ^ 24)%N -> (qb < 2 ^ 24)%N -> (qa * qb < 2 ^ 24)%N ->
  (ka < 64)%N -> (kb < 64)%N ->
  valid dev = true ->
  freeSizeA problem 0%N = Ok (qa * 2 ^ ka)%N ->
  freeSizeB problem 0%N = Ok (qb * 2 ^ kb)%N ->
  let value := {| mt0_scale := ratio 1 (2 ^ ka);
                  mt1_scale := ratio 1 (2 ^ kb);
                  devSolScale := dev |} in
  Tile0Granularity.call G {| Tile0Granularity.value := ratio 1 (2 ^ ka) |}
    problem
  = Ok (G (of_size qa))
  /\ Tile1Granularity.call G {| Tile1Granularity.value := ratio 1 (2 ^ kb) |}
       problem
     = Ok (G (of_size qb))
  /\ WavesPerSIMD.call {| WavesPerSIMD.value := value |} problem
     = Ok (mul (of_size (qa * qb)) dev)
  /\ CUGranularity.call G {| CUGranularity.value := value |} problem
     = Ok (G (mul (of_size (qa * qb)) dev)).
Proof.
  intros Hqa Hqb Hab Hka Hkb Hd HA HB value.
  assert (Ca : ceil (mul (of_size (qa * 2 ^ ka)) (ratio 1 (2 ^ ka))) = of_size qa)
    by (rewrite mul_ratio_pow2, ratio_exact, ceil_of_size_small by assumption;
        reflexivity).
  assert (Cb : ceil (mul (of_size (qb * 2 ^ kb)) (ratio 1 (2 ^ kb))) = of_size qb)
    by (rewrite mul_ratio_pow2, ratio_exact, ceil_of_size_small by assumption;
        reflexivity).
  assert (He : product_exact
                 (ceil (mul (of_size (qa * 2 ^ ka)) (ratio 1 (2 ^ ka))))
                 (ceil (mul (of_size (qb * 2 ^ kb)) (ratio 1 (2 ^ kb)))))
    by (rewrite Ca, Cb; apply product_exact_of_size; assumption).
  unfold Tile0Granularity.call, Tile1Granularity.call,
    WavesPerSIMD.call, CUGranularity.call. subst value.
  cbn [Tile0Granularity.value Tile1Granularity.value WavesPerSIMD.value
       CUGranularity.value mt0_scale mt1_scale devSolScale].
  rewrite HA, HB. cbn [bind].
  rewrite (tilesPerCu_exact _ _ _ _ _ Hd He), Ca, Cb.
  rewrite !mul_ratio_pow2, !ratio_exact by assumption.
  rewrite (mul_of_size_exact qa qb Hab Hqa Hqb).
  repeat split.
Qed.

(** *** When a call fails *)

(** X6. A call returns a value exactly when the problem has a size at
    every index the feature asks for; otherwise it ends in the
    out-of-bounds exception of an index that is not below the number of
    sizes. *)
Theorem evaluation_succeeds_iff_in_range
    (f : MLFeature) (problem : ContractionProblem) :
  match evaluate G f problem with
  | Ok _ => in_range f problem = true
  | Throw (OutOfRange idx size) =>
      in_range f problem = false /\ (size <= idx)%N
  end.
Proof.
  destruct f as [f | f | f | f | f | f | f]; cbn [evaluate in_range];
    unfold FreeSizeA.call, FreeSizeB.call, BoundSize.call,
      Tile0Granularity.call, Tile1Granularity.call,
      CUGranularity.call, WavesPerSIMD.call, freeSizeA, freeSizeB, boundSize;
    repeat match goal with
    | |- context [at_ ?v ?i] =>
        let E := fresh "E" in
        destruct (at_ v i) as [? | ?] eqn:E; cbn [bind];
        [apply at_ok_in_range in E
        | apply at_throw_out_of_range in E; destruct E as [-> E]]
    end;
    rewrite ?andb_true_iff, ?andb_false_iff, ?N.ltb_lt, ?N.ltb_ge;
    auto.
Qed.

(** *** Signs *)

(** X7. When no scale factor is negative, [WavesPerSIMD] never returns a
    negative number, a [-0] or [-infinity], whatever the sizes. *)
Theorem WavesPerSIMD_not_negative
    (value : GranularityScaleFactors) (problem : ContractionProblem)
    (w : float) :
  no_negative_scale value = true ->
  WavesPerSIMD.call {| WavesPerSIMD.value := value |} problem = Ok w ->
  is_negative w = false.
Proof.
  unfold no_negative_scale. intros Hs Hw.
  apply andb_true_iff in Hs. destruct Hs as [Hs H2].
  apply andb_true_iff in Hs. destruct Hs as [H0 H1].
  apply negb_true_iff in H0, H1, H2.
  unfold WavesPerSIMD.call in Hw. cbn [WavesPerSIMD.value] in Hw.
  destruct (freeSizeA problem 0%N) as [a | e]; [ | discriminate Hw].
  destruct (freeSizeB problem 0%N) as [b | e]; [ | discriminate Hw].
  cbn [bind] in Hw. injection Hw as <-.
  repeat first [apply mul_not_negative | apply ceil_not_negative
               | apply of_size_not_negative | assumption].
Qed.

(** *** Range of the results *)

Lemma of_size_finite (s : N) :
  (s < 2 ^ 64)%N -> is_finite_nonneg (of_size s) = true.
Proof.
  intro Hs. destruct s as [ | p]; [reflexivity | ].
  unfold of_size. pose proof (of_Z_pos (Z.of_N (N.pos p)) eq_refl) as H.
  destruct (of_Z (Z.of_N (N.pos p))) as [ | [ | ] | | [ | ] q e];
    try contradiction; [ | reflexivity].
  exfalso. rewrite Zdigits2_log2 in H by reflexivity.
  assert (Z.log2 (Z.of_N (N.pos p)) < 64).
  { apply Z.log2_lt_pow2; [reflexivity | ].
    change (2 ^ 64) with (Z.of_N (2 ^ 64)). lia. }
  lia.
Qed.

(** X8. An indexed feature never returns a NaN, an infinity or a negative
    number: for every size a [size_t] can hold its value is finite and not
    negative. *)
Theorem indexed_features_finite
    (i : N) (problem : ContractionProblem) (s : N) :
  (s < 2 ^ 64)%N ->
  (freeSizeA problem i = Ok s ->
   exists v, FreeSizeA.call {| FreeSizeA.index := i |} problem = Ok v
             /\ is_finite_nonneg v = true)
  /\ (freeSizeB problem i = Ok s ->
      exists v, FreeSizeB.call {| FreeSizeB.index := i |} problem = Ok v
                /\ is_finite_nonneg v = true)
  /\ (boundSize problem i = Ok s ->
      exists v, BoundSize.call {| BoundSize.index := i |} problem = Ok v
                /\ is_finite_nonneg v = true).
Proof.
  intro Hs. unfold FreeSizeA.call, FreeSizeB.call, BoundSize.call.
  cbn [FreeSizeA.index FreeSizeB.index BoundSize.index].
  repeat split; intros ->; cbn [bind]; eexists;
    (split; [reflexivity | apply of_size_finite, Hs]).
Qed.

(** X9. A free dimension that is not empty counts at least one tile: for
    a size above 0 and a positive finite scale the factor
    [ceil (size * scale)] of [CUGranularity] and [WavesPerSIMD] is at least
    1 (or [+infinity]), and with [devSolScale = 1] and the other dimension
    of one whole tile [WavesPerSIMD] returns it. *)
Theorem tile_count_at_least_one
    (a : N) (scale : float) (problem : ContractionProblem) :
  (0 < a)%N ->
  is_positive scale = true ->
  freeSizeA problem 0%N = Ok a ->
  freeSizeB problem 0%N = Ok 1%N ->
  le one (ceil (mul (of_size a) scale)) = true
  /\ WavesPerSIMD.call
       {| WavesPerSIMD.value :=
           {| mt0_scale := scale; mt1_scale := one; devSolScale := one |} |}
       problem
     = Ok (ceil (mul (of_size a) scale)).
Proof.
  intros Ha Hs HA HB. split; [apply one_le_tile_count; assumption | ].
  unfold WavesPerSIMD.call.
  cbn [WavesPerSIMD.value mt0_scale mt1_scale devSolScale].
  rewrite HA, HB. cbn [bind].
  change (ceil (mul (of_size 1) one)) with one.
  rewrite !(mul_comm _ one), !mul_one_l; [reflexivity | | ];
    repeat first [apply ceil_valid | apply mul_of_size_valid
                 | rewrite mul_one_l].
Qed.

End MoreFeatures.

Lemma indexed_features_injective_witness :
  FreeSizeA.call {| FreeSizeA.index := 1 |}
    {| freeSizesA := [5; 16777216]; freeSizesB := [3]; boundSizes := [] |}%N
  = FreeSizeA.call {| FreeSizeA.index := 1 |}
      {| freeSizesA := [9; 16777216]; freeSizesB := []; boundSizes := [] |}%N
  /\ 16777216%N = 16777216%N.
Proof.
  split; [reflexivity | ].
  apply (proj1 (indexed_features_injective 1%N
                  {| freeSizesA := [5; 16777216]; freeSizesB := [3];
                     boundSizes := [] |}%N
                  {| freeSizesA := [9; 16777216]; freeSizesB := [];
                     boundSizes := [] |}%N
                  16777216%N 16777216%N
                  ltac:(vm_compute; discriminate)
                  ltac:(vm_compute; discriminate)));
    reflexivity.
Defined.

Lemma nan_scale_propagates_witness :
  WavesPerSIMD.call
    {| WavesPerSIMD.value :=
        {| mt0_scale := ratio 1 2; mt1_scale := ratio 1 3;
           devSolScale := S754_nan |} |}
    (problem_with 5 3 [] [] [])
  = Ok S754_nan
  /\ CUGranularity.call ceil
       {| CUGranularity.value :=
           {| mt0_scale := ratio 1 2; mt1_scale := ratio 1 3;
              devSolScale := S754_nan |} |}
       (problem_with 5 3 [] [] [])
     = Ok (ceil S754_nan).
Proof.
  apply (proj1 (nan_scale_propagates ceil) _ (problem_with 5 3 [] [] []) 5%N 3%N);
    reflexivity.
Defined.

Lemma extension_keeps_values_witness :
  evaluate ceil (ABoundSize {| BoundSize.index := 0 |})
    (extend_problem (problem_with 5 3 [] [] [8%N]) [7%N] [] [2%N; 2%N])
  = Ok (of_size 8).
Proof.
  apply extension_keeps_values. reflexivity.
Defined.

Lemma whole_tiles_exact_witness :
  WavesPerSIMD.call
    {| WavesPerSIMD.value :=
        {| mt0_scale := ratio 1 (2 ^ 5); mt1_scale := ratio 1 (2 ^ 4);
           devSolScale := ratio 1 10 |} |}
    (problem_with (3 * 2 ^ 5) (7 * 2 ^ 4) [] [] [])
  = Ok (mul (of_size (3 * 7)) (ratio 1 10)).
Proof.
  apply (whole_tiles_exact ceil 3 7 5 4 (ratio 1 10)
           (problem_with (3 * 2 ^ 5) (7 * 2 ^ 4) [] [] []));
    reflexivity.
Defined.

Lemma indexed_features_finite_witness :
  exists v,
    FreeSizeA.call {| FreeSizeA.index := 0 |}
      (problem_with (2 ^ 64 - 1) 3 [] [] [])
    = Ok v
    /\ is_finite_nonneg v = true.
Proof.
  apply (proj1 (indexed_features_finite 0%N
                  (problem_with (2 ^ 64 - 1) 3 [] [] [])
                  (2 ^ 64 - 1)%N eq_refl)).
  reflexivity.
Defined.

Lemma tile_count_at_least_one_witness :
  le one (ceil (mul (of_size 1) (ratio 1 256))) = true
  /\ WavesPerSIMD.call
       {| WavesPerSIMD.value :=
           {| mt0_scale := ratio 1 256; mt1_scale := one;
              devSolScale := one |} |}
       (problem_with 1 1 [] [] [])
     = Ok (ceil (mul (of_size 1) (ratio 1 256))).
Proof.
  apply (tile_count_at_least_one 1%N (ratio 1 256) (problem_with 1 1 [] [] []));
    reflexivity.
Defined.

Lemma WavesPerSIMD_not_negative_witness :
  is_negative (ratio 3 10) = false.
Proof.
  apply (WavesPerSIMD_not_negative example_scale (problem_with 5 3 [] [] []));
    reflexivity.
Defined.
